(** * linetools.analysis.interactive_plot: navigation and continuum-fit handlers

    A shallow embedding of [src/linetools/analysis/interactive_plot.py]
    (Python 2 with numpy and matplotlib).

    Numbers.  Python floats are modelled by canonical rationals [Qc]:
    arithmetic is exact, equality is Leibniz equality, there is no rounding,
    no infinity and no NaN.  A flux sample that may be NaN is an
    [option Qc] with [None] standing for NaN.

    Effects.  A handler is a state transformer that can stop early, either
    by [return] or by raising; the state it stops in is the state the Python
    object is left in.  Plot artists and the knots file written by [update]
    are display and persistence state and are left out. *)

From Stdlib Require Import String QArith Qcanon ZArith List Bool Lia Lqa.
From Stdlib Require Import Sorted Permutation.
Import ListNotations.

Local Open Scope Qc_scope.

(** ** Numbers *)

(** A decimal or fractional literal of the source, [n/d]. *)
Definition dec (n : Z) (d : positive) : Qc := Q2Qc (n # d).

Definition Qc_eqb (a b : Qc) : bool := Qeq_bool a b.

Definition Qc_ltb (a b : Qc) : bool :=
  match a ?= b with Lt => true | _ => false end.

Definition Qc_leb (a b : Qc) : bool :=
  match a ?= b with Gt => false | _ => true end.

(** Python's [abs] on a float. *)
Definition Qc_abs (a : Qc) : Qc := if Qc_ltb a 0 then - a else a.

(** ** Python exceptions and results *)

(** [UnboundLocalError] is Python's subclass of [NameError] raised when a
    local variable is read before any assignment. *)
Inductive exn : Type :=
| IndexError
| ValueError
| TypeError
| UnboundLocalError.

Definition isinstance_NameError (e : exn) : bool :=
  match e with UnboundLocalError => true | _ => false end.

Inductive result (A : Type) : Type :=
| Ok (a : A)
| Raise (e : exn).
Arguments Ok {A} a.
Arguments Raise {A} e.

(** ** Python and numpy sequences *)

(** [l[i]] for an integer index: negative indices count from the end, an
    index outside the sequence raises [IndexError]. *)
Definition getitem {A : Type} (l : list A) (i : Z) : result A :=
  let n := Z.of_nat (length l) in
  let j := if (i <? 0)%Z then (i + n)%Z else i in
  if ((j <? 0) || (n <=? j))%Z%bool then Raise IndexError
  else match nth_error l (Z.to_nat j) with
       | Some a => Ok a
       | None => Raise IndexError
       end.

(** The bound of a slice [l[i:j]], normalised as Python does: a negative
    bound counts from the end, and the outcome is clipped to [0, len]. *)
Definition slice_bound (n i : Z) : nat :=
  let j := if (i <? 0)%Z then (i + n)%Z else i in
  Z.to_nat (Z.min n (Z.max 0 j)).

(** [l[i:j]]; never raises. *)
Definition slice {A : Type} (l : list A) (i j : Z) : list A :=
  let n := Z.of_nat (length l) in
  let a := slice_bound n i in
  let b := slice_bound n j in
  firstn (b - a) (skipn a l).

(** [l[1::2]]: every second element starting with the one at index 1. *)
Fixpoint every_second {A : Type} (l : list A) : list A :=
  match l with
  | _ :: b :: r => b :: every_second r
  | _ => []
  end.

(** [l[1:-1]] *)
Definition interior {A : Type} (l : list A) : list A :=
  removelast (tl l).

(** ** Events *)

Module event.
(** A matplotlib key event: the key, the index in [fig.axes] of the axes
    under the cursor ([None] outside every axes), the cursor in data
    coordinates and in screen pixels. *)
Record t : Type := make {
  key : string;
  inaxes : option nat;
  xdata : Qc;
  ydata : Qc;
  x : Qc;
  y : Qc
}.
End event.

(** ** PlotWrapBase: navigation *)

Record Axes : Type := mkAxes {
  xlim : Qc * Qc;
  ylim : Qc * Qc
}.

Definition set_xlim (ax : Axes) (a b : Qc) : Axes :=
  {| xlim := (a, b); ylim := ylim ax |}.

Definition set_ylim (ax : Axes) (a b : Qc) : Axes :=
  {| xlim := xlim ax; ylim := (a, b) |}.

Definition truthy {A : Type} (o : option A) : bool :=
  match o with Some _ => true | None => false end.

(** [fl[mask]] for a boolean mask computed from [wa]. *)
Fixpoint mask_select {A B : Type} (p : A -> bool) (wa : list A) (fl : list B)
  : list B :=
  match wa, fl with
  | w :: wa', f :: fl' =>
      if p w then f :: mask_select p wa' fl' else mask_select p wa' fl'
  | _, _ => []
  end.

Section Navigation.

(** [linetools.utils.between] and [linetools.spectra.plotting.get_flux_plotrange]
    are imported by the module and not part of it.  They and the setters of
    the axes are taken to return: [Ok] gives the limits the handler sets
    when they do, and says nothing on whether they raise. *)
Variable between : Qc -> Qc -> Qc -> bool.
Variable get_flux_plotrange : list (option Qc) -> Qc * Qc.

Variable wa : list Qc.
Variable fl : list (option Qc).

Definition on_keypress_navigate (ev : event.t) (ax : Axes) : result Axes :=
  let k := event.key ev in
  let inax := truthy (event.inaxes ev) in
  if (k =? "i")%string && inax then
    let '(x0, x1) := xlim ax in
    let x := event.xdata ev in
    let dx := Qc_abs (x1 - x0) in
    Ok (set_xlim ax (x - dec 275 1000 * dx) (x + dec 275 1000 * dx))
  else if (k =? "o")%string && inax then
    let '(x0, x1) := xlim ax in
    let x := event.xdata ev in
    let dx := Qc_abs (x1 - x0) in
    Ok (set_xlim ax (x - dec 95 100 * dx) (x + dec 95 100 * dx))
  else if (k =? "Y")%string && inax then
    let '(y0, y1) := ylim ax in
    let dy := Qc_abs (y1 - y0) in
    Ok (set_ylim ax (y0 - dec 5 100 * dy) (y1 + dec 4 10 * dy))
  else if (k =? "y")%string && inax then
    let '(x0, x1) := xlim ax in
    let '(y0, y1) :=
      get_flux_plotrange (mask_select (fun w => between w x0 x1) wa fl) in
    Ok (set_ylim ax y0 y1)
  else if (k =? "]")%string then
    let '(x0, x1) := xlim ax in
    let dx := Qc_abs (x1 - x0) in
    Ok (set_xlim ax (x1 - dec 1 10 * dx) (x1 + dec 9 10 * dx))
  else if (k =? "[")%string then
    let '(x0, x1) := xlim ax in
    let dx := Qc_abs (x1 - x0) in
    Ok (set_xlim ax (x0 - dec 9 10 * dx) (x0 + dec 1 10 * dx))
  else if (k =? "w")%string then
    match getitem wa 0, getitem wa (-1) with
    | Ok w0, Ok w1 =>
        let '(y0, y1) := get_flux_plotrange fl in
        Ok (set_ylim (set_xlim ax w0 w1) y0 y1)
    | Raise e, _ => Raise e
    | _, Raise e => Raise e
    end
  else if (k =? "b")%string && inax then
    let '(y0, y1) := ylim ax in
    Ok (set_ylim ax (event.ydata ev) y1)
  else if (k =? "t")%string && inax then
    let '(y0, y1) := ylim ax in
    Ok (set_ylim ax y0 (event.ydata ev))
  else if (k =? "l")%string && inax then
    let '(x0, x1) := xlim ax in
    Ok (set_xlim ax (event.xdata ev) x1)
  else if (k =? "r")%string && inax then
    let '(x0, x1) := xlim ax in
    Ok (set_xlim ax x0 (event.xdata ev))
  else Ok ax.

End Navigation.

(** ** Knots and their order *)

(** A knot is the tuple [(wavelength, flux)]. *)
Definition knot : Type := (Qc * Qc)%type.

(** Python's [<] and [==] on 2-tuples of floats. *)
Definition knot_ltb (a b : knot) : bool :=
  Qc_ltb (fst a) (fst b) || (Qc_eqb (fst a) (fst b) && Qc_ltb (snd a) (snd b)).

Definition knot_eqb (a b : knot) : bool :=
  Qc_eqb (fst a) (fst b) && Qc_eqb (snd a) (snd b).

Section Sorting.

Context {A : Type}.
Variable ltb : A -> A -> bool.

(** [list.sort()] and [sorted()].  Python sorts stably and only asks [<];
    the insertion sort below is stable as well. *)
Fixpoint insort (k : A) (l : list A) : list A :=
  match l with
  | [] => [k]
  | h :: t => if ltb h k then h :: insort k t else k :: l
  end.

Fixpoint sort (l : list A) : list A :=
  match l with
  | [] => []
  | h :: t => insort h (sort t)
  end.

End Sorting.

(** [list.remove(v)]: drops the first element equal to [v]; [None] when there
    is none (Python raises [ValueError]). *)
Fixpoint remove_first (v : knot) (l : list knot) : option (list knot) :=
  match l with
  | [] => None
  | h :: t =>
      if knot_eqb h v then Some t
      else match remove_first v t with
           | Some t' => Some (h :: t')
           | None => None
           end
  end.

(** [l[i] = v] for an index known to be in range. *)
Fixpoint setitem {A : Type} (l : list A) (i : nat) (v : A) : list A :=
  match l, i with
  | [], _ => []
  | _ :: t, O => v :: t
  | h :: t, S i' => h :: setitem t i' v
  end.

(** ** numpy routines *)

(** [np.searchsorted(wa, v)] (side left) on an ascending array, which numpy
    requires: the number of leading elements below [v]. *)
Fixpoint searchsorted (wa : list Qc) (v : Qc) : nat :=
  match wa with
  | [] => O
  | w :: r => if Qc_ltb w v then S (searchsorted r v) else O
  end.

(** [np.argmin]: the first index holding the minimum. *)
Fixpoint argmin (l : list Qc) : nat :=
  match l with
  | [] => O
  | v :: r =>
      match r with
      | [] => O
      | _ => let j := argmin r in
             if Qc_leb v (nth j r 0) then O else S j
      end
  end.

(** [np.array(xc[:-1]) + 0.5*np.diff(xc)] *)
Fixpoint midpoints (xc : list Qc) : list Qc :=
  match xc with
  | a :: ((b :: _) as r) => (a + dec 1 2 * (b - a)) :: midpoints r
  | _ => []
  end.

(** [np.interp(x, xp, fp)] for one [x] over the sample points
    [pts = zip(xp, fp)], ascending in [xp]: constant outside the samples,
    linear between two neighbours. *)
Fixpoint interp_from (x : Qc) (pts : list knot) : Qc :=
  match pts with
  | [] => 0
  | (x0, y0) :: rest =>
      match rest with
      | [] => y0
      | (x1, y1) :: _ =>
          if Qc_ltb x x1 then (y1 - y0) / (x1 - x0) * (x - x0) + y0
          else interp_from x rest
      end
  end.

Definition interp (x : Qc) (pts : list knot) : Qc :=
  match pts with
  | [] => 0
  | (x0, y0) :: _ => if Qc_ltb x x0 then y0 else interp_from x pts
  end.

(** [np.median] of a non-empty sample. *)
Definition median (l : list Qc) : Qc :=
  let s := sort Qc_ltb l in
  let n := length s in
  if Nat.even n
  then (nth (n / 2 - 1) s 0 + nth (n / 2) s 0) / dec 2 1
  else nth (n / 2) s 0.

(** [fl'[good]] with [good = (er' > 0) & ~np.isnan(fl')] *)
Fixpoint good_flux (er : list Qc) (fl : list (option Qc)) : list Qc :=
  match er, fl with
  | e :: er', f :: fl' =>
      match f with
      | Some v => if Qc_ltb 0 e then v :: good_flux er' fl' else good_flux er' fl'
      | None => good_flux er' fl'
      end
  | _, _ => []
  end.

Definition npix : Z := 10.

(** The usable fluxes within [npix] pixels of [x]: [fl[i0:i1][good]]. *)
Definition good_window (wa : list Qc) (fl : list (option Qc)) (er : list Qc)
    (x : Qc) : list Qc :=
  let i := Z.of_nat (searchsorted wa x) in
  let i0 := (i - npix)%Z in
  let i1 := (i + npix)%Z in
  good_flux (slice er i0 i1) (slice fl i0 i1).

Definition local_median (wa : list Qc) (fl : list (option Qc)) (er : list Qc)
    (x : Qc) (default : Qc) : Qc :=
  match good_window wa fl er x with
  | [] => default            (* good.sum() is 0 *)
  | good => median good
  end.

(** [co[i:j] = vals]: the values replace the slice; a single value is
    broadcast; any other length mismatch raises [ValueError]. *)
Definition setslice (co : list Qc) (i j : Z) (vals : list Qc) : result (list Qc) :=
  let n := Z.of_nat (length co) in
  let a := slice_bound n i in
  let len := (slice_bound n j - a)%nat in
  if (length vals =? len)%nat then Ok (firstn a co ++ vals ++ skipn (a + len) co)
  else match vals with
       | [v] => Ok (firstn a co ++ repeat v len ++ skipn (a + len) co)
       | _ => Raise ValueError
       end.

(** ** InteractiveCoFit: the continuum-fit controller *)

(** The attributes of an [InteractiveCoFit] object that the handlers read
    and write.  [wa], [fl] and [er] are parallel arrays of one length. *)
Record InteractiveCoFit : Type := mkCoFit {
  wa : list Qc;
  fl : list (option Qc);
  er : list Qc;
  continuum : list Qc;
  contpoints : list knot;
  indices : Z * Z;
  anchor_start : knot;
  anchor_end : knot;
  wmin : Qc;
  wmax : Qc;
  finished : bool
}.

Definition set_contpoints (st : InteractiveCoFit) (cps : list knot) : InteractiveCoFit :=
  mkCoFit (wa st) (fl st) (er st) (continuum st) cps (indices st)
          (anchor_start st) (anchor_end st) (wmin st) (wmax st) (finished st).

Definition set_continuum (st : InteractiveCoFit) (co : list Qc) : InteractiveCoFit :=
  mkCoFit (wa st) (fl st) (er st) co (contpoints st) (indices st)
          (anchor_start st) (anchor_end st) (wmin st) (wmax st) (finished st).

Definition set_finished (st : InteractiveCoFit) (b : bool) : InteractiveCoFit :=
  mkCoFit (wa st) (fl st) (er st) (continuum st) (contpoints st) (indices st)
          (anchor_start st) (anchor_end st) (wmin st) (wmax st) b.

(** How a block of statements ends: it runs off its end, executes
    [return], or raises. *)
Inductive flow : Type :=
| Next
| Return
| Raised (e : exn).

Definition stmt : Type := InteractiveCoFit -> InteractiveCoFit * flow.

Definition seq (s1 s2 : stmt) : stmt :=
  fun st => match s1 st with
            | (st', Next) => s2 st'
            | stop => stop
            end.

Notation "s1 ;; s2" := (seq s1 s2) (at level 61, right associativity).

Definition skip : stmt := fun st => (st, Next).
Definition ret : stmt := fun st => (st, Return).
Definition raise (e : exn) : stmt := fun st => (st, Raised e).
Definition assign_contpoints (f : InteractiveCoFit -> list knot) : stmt :=
  fun st => (set_contpoints st (f st), Next).

Definition key_in (k : string) (ks : list string) : bool :=
  existsb (String.eqb k) ks.

(** [x in xs] where [xs] is the tuple of the knots' wavelengths *)
Definition x_in_knots (x : Qc) (cps : list knot) : bool :=
  existsb (Qc_eqb x) (map fst cps).

Definition is_empty {A : Type} (l : list A) : bool :=
  match l with [] => true | _ => false end.

Section CoFit.

(** Imported by the module and not part of it: [linetools.utils.between],
    the Akima spline of [linetools.analysis.interp], which maps control
    points to an evaluator or raises, and matplotlib's data-to-pixel
    transform of the main axes. *)
Variable between : Qc -> Qc -> Qc -> bool.
Variable AkimaSpline : list Qc -> list Qc -> result (Qc -> Qc).
Variable transData : knot -> knot.

(** [update]: refit the spline and refresh the continuum inside the
    fitting window.  The residuals, their histogram and the artists are
    display state and are left out, except for what can raise on the way:
    the residuals read [i] and [j], bound only when the spline was fitted,
    and the knot markers unpack the interior knots.  What is left out can
    raise as well (the residual arithmetic, the histogram, the save of the
    knots, the draw): [Raised] is a raise of the source, [Next] is its
    completion only when those lines raise nothing. *)
Definition update : stmt := fun st =>
  let cpts := anchor_start st :: contpoints st ++ [anchor_end st] in
  if (3 <=? length cpts)%nat then
    match AkimaSpline (map fst cpts) (map snd cpts) with
    | Raise e => (st, Raised e)
    | Ok spline =>
        let '(i, j) := indices st in
        match setslice (continuum st) i j (map spline (slice (wa st) i j)) with
        | Raise e => (st, Raised e)
        | Ok co =>
            let st' := set_continuum st co in
            (* x, y = zip( *self.contpoints[1:-1]) *)
            if is_empty (interior (contpoints st)) then (st', Raised ValueError)
            else (st', Next)
        end
    end
  else
    (* resid = (fl[i:j] - co[i:j]) / er[i:j] reads i and j unbound *)
    (st, Raised UnboundLocalError).

(** The squared screen distance from the cursor to a knot.  The source
    takes [np.hypot], its square root; [argmin] picks the same index for
    both. *)
Definition sep (ev : event.t) (cp : knot) : Qc :=
  let '(contx, conty) := transData cp in
  (event.x ev - contx) * (event.x ev - contx)
  + (event.y ev - conty) * (event.y ev - conty).

Definition nearest (ev : event.t) (cps : list knot) : nat :=
  argmin (map (sep ev) cps).

Definition is_edge (ind : nat) (cps : list knot) : bool :=
  ((ind =? 0) || (ind =? length cps - 1))%nat.

(** key ['+'] *)
Definition double_knots : stmt := fun st =>
  match contpoints st with
  | [] => (st, Raised ValueError)   (* xc, yc = zip( *[]) *)
  | cps =>
      let xc := map fst cps in
      let xnew := midpoints xc in
      let ynew := map (fun x => interp x cps) xnew in
      let ynew := map (fun xy => local_median (wa st) (fl st) (er st) (fst xy) (snd xy))
                      (combine xnew ynew) in
      (assign_contpoints (fun _ => sort knot_ltb (cps ++ combine xnew ynew)) ;; update) st
  end.

(** key ['_'] *)
Definition halve_knots : stmt := fun st =>
  match contpoints st with
  | [] => (st, Raised IndexError)
  | c0 :: _ =>
      let cp := contpoints st in
      (assign_contpoints
         (fun _ => [c0] ++ every_second (interior cp) ++ [last cp c0]) ;; update) st
  end.

Definition outside_region (ev : event.t) (st : InteractiveCoFit) : bool :=
  negb (between (event.xdata ev) (wmin st) (wmax st)).

(** keys ['a'] and ['3'] *)
Definition add_knot (ev : event.t) : stmt := fun st =>
  if outside_region ev st then (st, Return)
  else
    let x := event.xdata ev in
    let y := event.ydata ev in
    if is_empty (contpoints st) || negb (x_in_knots x (contpoints st)) then
      (assign_contpoints (fun s => sort knot_ltb (contpoints s ++ [(x, y)])) ;; update) st
    else (st, Next).

(** key ['A'] *)
Definition add_knot_median (ev : event.t) : stmt := fun st =>
  if outside_region ev st then (st, Return)
  else
    let x := event.xdata ev in
    if is_empty (contpoints st) || negb (x_in_knots x (contpoints st)) then
      let y := local_median (wa st) (fl st) (er st) x (event.ydata ev) in
      (assign_contpoints (fun s => sort knot_ltb (contpoints s ++ [(x, y)])) ;; update) st
    else (st, Next).

(** keys ['d'] and ['4'] *)
Definition delete_knot (ev : event.t) : stmt := fun st =>
  let cps := contpoints st in
  if (length cps <? 3)%nat then (st, Return)
  else
    let ind := nearest ev cps in
    if is_edge ind cps then (st, Return)
    else match nth_error cps ind with
         | None => (st, Raised IndexError)
         | Some k =>
             match remove_first k cps with
             | None => (st, Raised ValueError)
             | Some cps' => (assign_contpoints (fun _ => cps') ;; update) st
             end
         end.

(** key ['m'] *)
Definition move_knot (ev : event.t) : stmt := fun st =>
  if outside_region ev st then (st, Return)
  else
    let cps := contpoints st in
    if is_empty cps then (st, Raised ValueError)   (* contx, conty = zip( *[]) *)
    else
      let ind := nearest ev cps in
      if is_edge ind cps then (st, Return)
      else
        (assign_contpoints
           (fun _ => sort knot_ltb (setitem cps ind (event.xdata ev, event.ydata ev)))
         ;; update) st.

(** key ['M'] *)
Definition move_knot_median (ev : event.t) : stmt := fun st =>
  if outside_region ev st then (st, Return)
  else
    let cps := contpoints st in
    if is_empty cps then (st, Raised ValueError)
    else
      let ind := nearest ev cps in
      if is_edge ind cps then (st, Return)
      else
        let x := event.xdata ev in
        if is_empty cps || negb (x_in_knots x cps) then
          let y := local_median (wa st) (fl st) (er st) x (event.ydata ev) in
          (assign_contpoints (fun _ => sort knot_ltb (setitem cps ind (x, y)))
           ;; update) st
        else
          (* self.contpoints[ind] = x, y reads y, which was never assigned *)
          (st, Raised UnboundLocalError).

Definition is_main_axes (ev : event.t) : bool :=
  match event.inaxes ev with
  | Some n => (n =? 0)%nat
  | None => false
  end.

Definition on_keypress (ev : event.t) : stmt :=
  let k := event.key ev in
  if (k =? "q")%string then (fun st => (set_finished st true, Return))
  else
    (if (k =? "+")%string then double_knots else skip) ;;
    (if (k =? "_")%string then halve_knots else skip) ;;
    (if negb (is_main_axes ev) then ret else skip) ;;
    (if key_in k ["a"; "3"]%string then add_knot ev else skip) ;;
    (if (k =? "A")%string then add_knot_median ev
     else if key_in k ["d"; "4"]%string then delete_knot ev
     else if (k =? "m")%string then move_knot ev
     else if (k =? "M")%string then move_knot_median ev
     else skip).

(** The session: the toolkit delivers the key events one at a time, each
    handler runs to its end, and after a handler raised the loop goes on
    with the object as that handler left it. *)
Definition run_events (evs : list event.t) (st : InteractiveCoFit) : InteractiveCoFit :=
  fold_left (fun s ev => fst (on_keypress ev s)) evs st.

Definition bind {A B : Type} (r : result A) (f : A -> result B) : result B :=
  match r with
  | Ok a => f a
  | Raise e => Raise e
  end.

Notation "x <- r ; k" := (bind r (fun x => k))
  (at level 61, r at next level, right associativity).

(** [co[i]] for the optional [co] argument: subscripting [None] raises
    [TypeError]. *)
Definition getitem_co (co : option (list Qc)) (i : Z) : result Qc :=
  match co with
  | None => Raise TypeError
  | Some c => getitem c i
  end.

(** [__init__], from the sort of the knots on.  [contpoints0] is the knot
    list in effect once the saved-knots prompt is over.  [plotinit], which
    builds the artists, and [modifypoints], which connects the callbacks,
    are taken to complete. *)
Definition init (wa0 : list Qc) (fl0 : list (option Qc)) (er0 : list Qc)
    (contpoints0 : list knot) (co : option (list Qc)) : result InteractiveCoFit :=
  let contpoints := sort knot_ltb contpoints0 in
  c0 <- getitem contpoints 0 ;
  cN <- getitem contpoints (-1) ;
  let wmin := fst c0 in
  let wmax := fst cN in
  let n := Z.of_nat (length wa0) in
  let i1 := Z.of_nat (searchsorted wa0 wmin) in
  let i2 := Z.of_nat (searchsorted wa0 wmax) in
  let i1 := if (i1 =? 0)%Z then 1%Z else i1 in
  let i2 := if ((i2 =? n - 1) || (i2 <? 0))%Z then n else i2 in
  w1 <- getitem wa0 i1 ;
  let contpoints := setitem contpoints 0 (w1, snd c0) in
  cN <- getitem contpoints (-1) ;
  w2 <- getitem wa0 i2 ;
  let contpoints := setitem contpoints (length contpoints - 1) (w2, snd cN) in
  ws <- getitem wa0 (i1 - 1) ;
  cs <- getitem_co co (i1 - 1) ;
  we <- getitem wa0 (i2 + 1) ;
  ce <- getitem_co co (i2 + 1) ;
  let st := mkCoFit wa0 fl0 er0 (match co with Some c => c | None => [] end)
                    contpoints (i1, i2) (ws, cs) (we, ce) wmin wmax false in
  match update st with
  | (st', Raised e) => Raise e
  | (st', _) => Ok st'
  end.

End CoFit.

(** ** PlotWrapBase: smoothing *)

(** What [on_keypress_smooth] reads and writes: the smoothing width and the
    y data of the flux line, [self.artists['fl']]. *)
Record Smoothing : Type := mkSmoothing {
  nsmooth : Qc;
  fl_ydata : list (option Qc)
}.

Section Smooth.

(** [linetools.spectra.convolve.convolve_psf] is imported by the module and
    not part of it. *)
Variable convolve_psf : list (option Qc) -> Qc -> list (option Qc).

(** [self.fl], the raw flux. *)
Variable raw_fl : list (option Qc).

Definition on_keypress_smooth (ev : event.t) (s : Smoothing) : Smoothing :=
  let k := event.key ev in
  if (k =? "S")%string then
    let n := if Qc_ltb 0 (nsmooth s) then nsmooth s + dec 1 2
             else nsmooth s + dec 1 1 in
    mkSmoothing n (convolve_psf raw_fl n)
  else if (k =? "U")%string then mkSmoothing 0 raw_fl
  else s.

(** The smoothing state after a sequence of key events. *)
Definition run_smooth (evs : list event.t) (s : Smoothing) : Smoothing :=
  fold_left (fun s ev => on_keypress_smooth ev s) evs s.

End Smooth.

(** ** Saving and loading the knots *)

(** The exceptions of [savejson] and [loadjson]: [IOError] from the file
    system, [NameError] for the global [gzip], which the module never
    imports, and [ValueError] from the JSON decoder. *)
Inductive file_exn : Type :=
| File_IOError
| File_NameError
| File_ValueError.

Inductive file_result (A : Type) : Type :=
| Done (a : A)
| Fails (e : file_exn).
Arguments Done {A} a.
Arguments Fails {A} e.

(** The files by path: [None] where there is none.  Every path is taken to
    be writable, and two paths are two files: links and the several
    spellings of one path are not modelled. *)
Definition files : Type := string -> option string.

Definition write_file (fs : files) (filename content : string) : files :=
  fun f => if (f =? filename)%string then Some content else fs f.

(** [s.endswith(suffix)] *)
Definition endswith (s suffix : string) : bool :=
  let n := String.length s in
  let m := String.length suffix in
  if (m <=? n)%nat then (substring (n - m) m s =? suffix)%string else false.

Section Json.

(** [json.dump] of a knot list, and [json.load], which gives the knot list
    back or raises on text that is no JSON. *)
Variable json_dump : list knot -> string.
Variable json_load : string -> option (list knot).

(** [savejson(filename, obj, overwrite)] on a knot list. *)
Definition savejson (fs : files) (filename : string) (obj : list knot)
    (overwrite : bool) : files * file_result unit :=
  if truthy (fs filename) && negb overwrite then (fs, Fails File_IOError)
  else if endswith filename ".gz" then (fs, Fails File_NameError)
  else (write_file fs filename (json_dump obj), Done tt).

(** [loadjson(filename)] *)
Definition loadjson (fs : files) (filename : string) : file_result (list knot) :=
  match fs filename with
  | None => Fails File_IOError
  | Some content =>
      match json_load content with
      | Some obj => Done obj
      | None => Fails File_ValueError
      end
  end.

End Json.

(** * Vocabulary of the properties *)

(** [a <= b] for the order a boolean [<] induces: not [b < a]. *)
Definition le_of {A : Type} (ltb : A -> A -> bool) (a b : A) : Prop :=
  ltb b a = false.

Definition knot_le : knot -> knot -> Prop := le_of knot_ltb.

(** What [sorted()] returns: every knot is [<=] all later ones, in Python's
    tuple order. *)
Definition knots_sorted (l : list knot) : Prop := StronglySorted knot_le l.

(** The list without its element at index [i]. *)
Definition remove_at {A : Type} (i : nat) (l : list A) : list A :=
  firstn i l ++ skipn (S i) l.

(** When an add, delete or move event counts as rejected: the cursor lies
    outside the fitting window, too few knots would remain, there is a knot
    at the cursor's wavelength already, or the nearest knot is the first or
    the last of the list. *)
Inductive rejected (between : Qc -> Qc -> Qc -> bool) (transData : knot -> knot)
    (st : InteractiveCoFit) (ev : event.t) : Prop :=
| outside_fitting_window :
    In (event.key ev) ["a"; "3"; "A"; "m"; "M"]%string ->
    between (event.xdata ev) (wmin st) (wmax st) = false ->
    rejected between transData st ev
| insufficient_knots :
    In (event.key ev) ["d"; "4"]%string ->
    (length (contpoints st) < 3)%nat ->
    rejected between transData st ev
| duplicate_knot_x :
    In (event.key ev) ["a"; "3"; "A"]%string ->
    x_in_knots (event.xdata ev) (contpoints st) = true ->
    rejected between transData st ev
| nearest_is_edge :
    In (event.key ev) ["d"; "4"; "m"; "M"]%string ->
    is_edge (nearest transData ev (contpoints st)) (contpoints st) = true ->
    rejected between transData st ev.

(** Equality of knot lists, decided. *)
Fixpoint knots_eqb (l1 l2 : list knot) : bool :=
  match l1, l2 with
  | [], [] => true
  | a :: r1, b :: r2 => knot_eqb a b && knots_eqb r1 r2
  | _, _ => false
  end.

(** Wavelengths strictly increasing along the knot list. *)
Definition lt_x (a b : knot) : Prop := fst a < fst b.

Definition wavelengths_increasing (l : list knot) : Prop := Sorted lt_x l.

(** The first knot's wavelength lies strictly below, and the last knot's
    strictly above, the wavelength of every other knot. *)
Definition anchors_strict (cps : list knot) : Prop :=
  match cps with
  | [] => False
  | f :: rest =>
      Forall (fun k => fst f < fst k) rest
      /\ Forall (fun k => fst k < fst (last cps f)) (removelast cps)
  end.

(** The knots of [cps] with the knots of [new] put between neighbours. *)
Fixpoint interleave (cps new : list knot) : list knot :=
  match cps, new with
  | c :: r, m :: ms => c :: m :: interleave r ms
  | _, _ => cps
  end.

(** A delete event, or a move event that the handler turns away (its
    nearest knot is the first or the last one, or its cursor lies outside
    the fitting window), or a move event whose cursor wavelength lies
    strictly between those of the knots [f] and [l]. *)
Definition delete_or_inner_move (between : Qc -> Qc -> Qc -> bool)
    (transData : knot -> knot) (f l : knot)
    (st : InteractiveCoFit) (ev : event.t) : Prop :=
  In (event.key ev) ["d"; "4"; "m"; "M"]%string
  /\ (In (event.key ev) ["m"; "M"]%string ->
      is_edge (nearest transData ev (contpoints st)) (contpoints st) = true
      \/ between (event.xdata ev) (wmin st) (wmax st) = false
      \/ (fst f < event.xdata ev /\ event.xdata ev < fst l)).

Section Sessions.

Variable between : Qc -> Qc -> Qc -> bool.
Variable AkimaSpline : list Qc -> list Qc -> result (Qc -> Qc).
Variable transData : knot -> knot.

(** Every event of the session is such an event in the state it meets. *)
Fixpoint deletes_and_inner_moves (f l : knot) (evs : list event.t)
    (st : InteractiveCoFit) : Prop :=
  match evs with
  | [] => True
  | ev :: rest =>
      delete_or_inner_move between transData f l st ev
      /\ deletes_and_inner_moves f l rest
           (fst (on_keypress between AkimaSpline transData ev st))
  end.

End Sessions.

(** Sorted by wavelength alone, ties allowed. *)
Definition sorted_by_wavelength (l : list knot) : Prop :=
  StronglySorted (fun a b => fst a <= fst b) l.

(** ** Sample data *)

(** A wavelength grid with the given integer wavelengths. *)
Definition grid (zs : list Z) : list Qc := map (fun z => dec z 1) zs.

(** [n] samples, all equal to 1: a flat continuum or a unit error array. *)
Definition ones (n : nat) : list Qc := repeat (dec 1 1) n.

(** [n] flux samples, all equal to [v], none NaN. *)
Definition flat_flux (v : Qc) (n : nat) : list (option Qc) := repeat (Some v) n.

(** The interval membership test [vmin <= a < vmax], standing in for
    [linetools.utils.between]. *)
Definition between_closed_open (a vmin vmax : Qc) : bool :=
  Qc_leb vmin a && Qc_ltb a vmax.

(** A plot range that ignores the flux. *)
Definition unit_plotrange (fl0 : list (option Qc)) : Qc * Qc := (0, 1).

(** A stand-in for the spline: it accepts any control points and its
    evaluator is 1 everywhere. *)
Definition flat_spline (xs ys : list Qc) : result (Qc -> Qc) :=
  Ok (fun _ => dec 1 1).

(** A screen on which one pixel is one data unit. *)
Definition screen_identity (k : knot) : knot := k.

(** A key event in the main axes with the cursor on the data point
    [(x, y)], which is pixel [(x, y)] on [screen_identity]. *)
Definition key_event (k : string) (x y : Z) : event.t :=
  event.make k (Some O) (dec x 1) (dec y 1) (dec x 1) (dec y 1).

Definition zoom_axes : Axes := mkAxes (dec 4000 1, dec 5000 1) (0, 1).

(** The object [__init__] builds from the knots (12, 1), (25, 11), (35, 1)
    on the grid 0, 10, ..., 50 with a flat continuum. *)
Definition sample_state : InteractiveCoFit :=
  mkCoFit (grid [0; 10; 20; 30; 40; 50]%Z) (flat_flux (dec 1 1) 6) (ones 6) (ones 6)
          [(dec 20 1, dec 1 1); (dec 25 1, dec 11 1); (dec 40 1, dec 1 1)]
          (2%Z, 4%Z) (dec 10 1, dec 1 1) (dec 50 1, dec 1 1)
          (dec 12 1) (dec 35 1) false.

(** Two knots only, (4000, 1.0) and (5000, 0.9), on a spectrum whose errors
    are all 0, so that no flux is usable for a median. *)
Definition two_anchor_state : InteractiveCoFit :=
  mkCoFit (grid [3990; 4000; 4500; 5000; 5010]%Z) (flat_flux (dec 1 1) 5)
          (repeat 0 5) (ones 5)
          [(dec 4000 1, dec 1 1); (dec 5000 1, dec 9 10)]
          (1%Z, 3%Z) (dec 3990 1, dec 1 1) (dec 5010 1, dec 1 1)
          (dec 4000 1) (dec 5000 1) false.

(** A sorted knot list whose first two knots share the wavelength 12, over
    a spectrum of 30 pixels at the wavelengths 0, 1, ..., 29 with flux 0. *)
Definition tied_state : InteractiveCoFit :=
  mkCoFit (grid (map Z.of_nat (List.seq 0 30))) (flat_flux 0 30) (ones 30) (ones 30)
          [(dec 12 1, dec 5 1); (dec 12 1, dec 7 1); (dec 15 1, dec 2 1)]
          (12%Z, 15%Z) (dec 11 1, dec 1 1) (dec 16 1, dec 1 1)
          (dec 12 1) (dec 15 1) false.

(** The invariant of the knot list: sorted, and at least two knots. *)
Definition knots_invariant (st : InteractiveCoFit) : Prop :=
  knots_sorted (contpoints st) /\ (2 <= length (contpoints st))%nat.

(** A statement keeps the invariant, however it ends. *)
Definition keeps_invariant (s : stmt) : Prop :=
  forall st, knots_invariant st -> knots_invariant (fst (s st)).

(** A natural number as a float. *)
Definition of_nat (k : nat) : Qc := Q2Qc (inject_Z (Z.of_nat k)).

(** The smoothing state of a fresh plot: width 0, the raw flux shown. *)
Definition unsmoothed (raw_fl : list (option Qc)) : Smoothing :=
  mkSmoothing 0 raw_fl.

(** Two states of the object agree on all that [__init__] fixes: the
    spectrum, the fitting window, the two outer anchors and its limits. *)
Definition same_window (st st' : InteractiveCoFit) : Prop :=
  wa st' = wa st /\ fl st' = fl st /\ er st' = er st
  /\ indices st' = indices st
  /\ anchor_start st' = anchor_start st /\ anchor_end st' = anchor_end st
  /\ wmin st' = wmin st /\ wmax st' = wmax st.

(** A statement writes the knot list and the continuum only. *)
Definition edits_only (s : stmt) : Prop :=
  forall st, same_window st (fst (s st)) /\ finished (fst (s st)) = finished st.

(** The keys that [InteractiveCoFit.on_keypress] acts on. *)
Definition edit_keys : list string :=
  ["q"; "+"; "_"; "a"; "3"; "A"; "d"; "4"; "m"; "M"]%string.

(** The two indices of the fitting window as [__init__] computes them from
    the extreme knot wavelengths. *)
Definition lower_index (wa0 : list Qc) (wmin0 : Qc) : Z :=
  let i1 := Z.of_nat (searchsorted wa0 wmin0) in
  if (i1 =? 0)%Z then 1%Z else i1.

Definition upper_index (wa0 : list Qc) (wmax0 : Qc) : Z :=
  let n := Z.of_nat (length wa0) in
  let i2 := Z.of_nat (searchsorted wa0 wmax0) in
  if ((i2 =? n - 1) || (i2 <? 0))%Z then n else i2.

(** What the spline needs of the knot list: wavelengths strictly
    increasing, over two knots or more. *)
Definition knots_distinct (st : InteractiveCoFit) : Prop :=
  wavelengths_increasing (contpoints st) /\ (2 <= length (contpoints st))%nat.

Definition keeps_distinct (s : stmt) : Prop :=
  forall st, knots_distinct st -> knots_distinct (fst (s st)).

(** A stand-in for [json.dump] that writes one text. *)
Definition dump_sample (obj : list knot) : string := "[[1, 1]]".

(** A directory holding the knots file of an earlier session. *)
Definition sample_files : files :=
  fun f => if (f =? "_knots.jsn")%string then Some "[[1, 1]]"%string else None.

(** * Properties *)

(** ** The sequence and numpy models on small inputs *)

Example slice_examples :
  slice [0; 1; 2; 3; 4]%Z 1 (-1) = [1; 2; 3]%Z
  /\ slice [0; 1; 2; 3; 4]%Z (-9) 11 = [0; 1; 2; 3; 4]%Z
  /\ slice [0; 1; 2; 3; 4]%Z (-3) 2 = []
  /\ slice [0; 1; 2; 3; 4]%Z 3 1 = [].
Proof. repeat split. Qed.

Example getitem_examples :
  getitem [10; 20; 30]%Z 0 = Ok 10%Z
  /\ getitem [10; 20; 30]%Z (-1) = Ok 30%Z
  /\ getitem [10; 20; 30]%Z 3 = Raise IndexError
  /\ getitem [10; 20; 30]%Z (-4) = Raise IndexError.
Proof. repeat split. Qed.

Example every_second_examples :
  every_second [1; 2; 3; 4; 5]%Z = [2; 4]%Z
  /\ interior [0; 1; 2; 3; 4]%Z = [1; 2; 3]%Z
  /\ interior [7]%Z = [].
Proof. repeat split. Qed.

Example searchsorted_examples :
  searchsorted (grid [1; 2; 3; 4; 5]%Z) (dec 5 1) = 4%nat
  /\ searchsorted (grid [1; 2; 3; 4; 5]%Z) (dec 7 1) = 5%nat
  /\ searchsorted (grid [1; 2; 3; 4; 5]%Z) (dec 0 1) = 0%nat
  /\ searchsorted (grid [1; 2; 3; 4; 5]%Z) (dec 5 2) = 2%nat.
Proof. repeat split. Qed.

Example argmin_examples :
  argmin (grid [3; 1; 2; 1]%Z) = 1%nat
  /\ argmin (grid [5]%Z) = 0%nat
  /\ argmin (grid [2; 2; 2]%Z) = 0%nat.
Proof. repeat split. Qed.

Example median_examples :
  Qc_eqb (median (grid [3; 1; 2]%Z)) (dec 2 1) = true
  /\ Qc_eqb (median (grid [4; 1; 3; 2]%Z)) (dec 5 2) = true.
Proof. split; vm_compute; reflexivity. Qed.

Example interp_examples :
  let pts := [(dec 4000 1, dec 1 1); (dec 5000 1, dec 9 10)] in
  Qc_eqb (interp (dec 4500 1) pts) (dec 95 100) = true
  /\ Qc_eqb (interp (dec 3000 1) pts) (dec 1 1) = true
  /\ Qc_eqb (interp (dec 5000 1) pts) (dec 9 10) = true
  /\ Qc_eqb (interp (dec 6000 1) pts) (dec 9 10) = true.
Proof. repeat split; vm_compute; reflexivity. Qed.

Example sort_example :
  knots_eqb
    (sort knot_ltb [(dec 3 1, dec 2 1); (dec 1 1, dec 7 1); (dec 1 1, dec 5 1)])
    [(dec 1 1, dec 5 1); (dec 1 1, dec 7 1); (dec 3 1, dec 2 1)] = true.
Proof. vm_compute. reflexivity. Qed.

(** ** The order on numbers and on knots *)

Lemma Qc_eqb_eq (a b : Qc) : Qc_eqb a b = true <-> a = b.
Proof.
  unfold Qc_eqb. rewrite Qeq_bool_iff. split.
  - apply Qc_is_canon.
  - intros ->. reflexivity.
Qed.

Lemma Qc_eqb_refl (a : Qc) : Qc_eqb a a = true.
Proof. apply Qc_eqb_eq. reflexivity. Qed.

Lemma Qc_eqb_neq (a b : Qc) : Qc_eqb a b = false <-> a <> b.
Proof.
  rewrite <- Qc_eqb_eq. destruct (Qc_eqb a b); split; congruence.
Qed.

Lemma Qc_ltb_lt (a b : Qc) : Qc_ltb a b = true <-> a < b.
Proof.
  unfold Qc_ltb. rewrite Qclt_alt. destruct (a ?= b); split; congruence.
Qed.

Lemma Qc_ltb_ge (a b : Qc) : Qc_ltb a b = false <-> b <= a.
Proof.
  split.
  - intros H. apply Qcnot_lt_le. rewrite <- Qc_ltb_lt. congruence.
  - intros H. destruct (Qc_ltb a b) eqn:E; [|reflexivity].
    apply Qc_ltb_lt in E. exfalso. exact (Qcle_not_lt _ _ H E).
Qed.

Lemma Qc_leb_le (a b : Qc) : Qc_leb a b = true <-> a <= b.
Proof.
  unfold Qc_leb. rewrite Qcle_alt. destruct (a ?= b); split; congruence.
Qed.

Lemma Qc_leb_gt (a b : Qc) : Qc_leb a b = false <-> b < a.
Proof.
  split.
  - intros H. apply Qcnot_le_lt. rewrite <- Qc_leb_le. congruence.
  - intros H. destruct (Qc_leb a b) eqn:E; [|reflexivity].
    apply Qc_leb_le in E. exfalso. exact (Qcle_not_lt _ _ E H).
Qed.

Lemma knot_eqb_eq (a b : knot) : knot_eqb a b = true <-> a = b.
Proof.
  destruct a as [a1 a2], b as [b1 b2]. unfold knot_eqb. simpl.
  rewrite andb_true_iff, !Qc_eqb_eq. split.
  - intros [-> ->]. reflexivity.
  - intros H. inversion H. auto.
Qed.

Lemma knot_ltb_spec (a b : knot) :
  knot_ltb a b = true <->
  fst a < fst b \/ (fst a = fst b /\ snd a < snd b).
Proof.
  unfold knot_ltb.
  rewrite orb_true_iff, andb_true_iff, !Qc_ltb_lt, Qc_eqb_eq. reflexivity.
Qed.

Lemma knot_le_spec (a b : knot) :
  knot_le a b <-> fst a < fst b \/ (fst a = fst b /\ snd a <= snd b).
Proof.
  unfold knot_le, le_of. split.
  - intros H.
    destruct (Qc_dec (fst a) (fst b)) as [[Hlt | Hgt] | Heq].
    + left. exact Hlt.
    + exfalso. assert (knot_ltb b a = true) by (apply knot_ltb_spec; auto).
      congruence.
    + right. split; [exact Heq|]. apply Qcnot_lt_le. intros Hs.
      assert (knot_ltb b a = true) by (apply knot_ltb_spec; auto).
      congruence.
  - intros H. destruct (knot_ltb b a) eqn:E; [|reflexivity].
    apply knot_ltb_spec in E. exfalso.
    destruct H as [H | [H1 H2]], E as [E | [E1 E2]].
    + exact (Qclt_not_le _ _ H (Qclt_le_weak _ _ E)).
    + rewrite E1 in H. exact (Qclt_not_eq _ _ H eq_refl).
    + rewrite H1 in E. exact (Qclt_not_eq _ _ E eq_refl).
    + exact (Qcle_not_lt _ _ H2 E2).
Qed.

Lemma knot_ltb_asym (a b : knot) : knot_ltb a b = true -> knot_ltb b a = false.
Proof.
  intros H. apply knot_ltb_spec in H. apply knot_le_spec.
  destruct H as [H | [H1 H2]]; [left; exact H | right].
  split; [exact H1 | apply Qclt_le_weak; exact H2].
Qed.

Lemma knot_le_trans (a b c : knot) :
  knot_ltb b a = false -> knot_ltb c b = false -> knot_ltb c a = false.
Proof.
  intros H1 H2. apply knot_le_spec in H1. apply knot_le_spec in H2.
  apply knot_le_spec.
  destruct H1 as [H1 | [E1 L1]], H2 as [H2 | [E2 L2]].
  - left. exact (Qclt_trans _ _ _ H1 H2).
  - left. rewrite <- E2. exact H1.
  - left. rewrite E1. exact H2.
  - right. split; [congruence | exact (Qcle_trans _ _ _ L1 L2)].
Qed.

Lemma knot_le_antisym (a b : knot) :
  knot_ltb a b = false -> knot_ltb b a = false -> a = b.
Proof.
  intros H1 H2. apply knot_le_spec in H1. apply knot_le_spec in H2.
  destruct a as [a1 a2], b as [b1 b2]. simpl in *.
  destruct H1 as [H1 | [E1 L1]], H2 as [H2 | [E2 L2]].
  - exfalso. exact (Qclt_not_le _ _ H1 (Qclt_le_weak _ _ H2)).
  - exfalso. rewrite E2 in H1. exact (Qclt_not_eq _ _ H1 eq_refl).
  - exfalso. rewrite E1 in H2. exact (Qclt_not_eq _ _ H2 eq_refl).
  - f_equal; [congruence | exact (Qcle_antisym _ _ L2 L1)].
Qed.

Lemma knots_eqb_eq (l1 l2 : list knot) : knots_eqb l1 l2 = true -> l1 = l2.
Proof.
  revert l2. induction l1 as [|a r1 IH]; intros [|b r2] H; try discriminate.
  - reflexivity.
  - simpl in H. apply andb_true_iff in H. destruct H as [Hab Hr].
    apply knot_eqb_eq in Hab. rewrite Hab, (IH r2 Hr). reflexivity.
Qed.

(** ** Sorting *)

Section SortFacts.

Context {A : Type}.
Variable ltb : A -> A -> bool.
Hypothesis ltb_asym : forall a b, ltb a b = true -> ltb b a = false.
Hypothesis le_trans :
  forall a b c, ltb b a = false -> ltb c b = false -> ltb c a = false.
Hypothesis le_antisym : forall a b, ltb a b = false -> ltb b a = false -> a = b.

Let le := le_of ltb.

Lemma le_refl a : le a a.
Proof.
  unfold le, le_of. destruct (ltb a a) eqn:E; [|reflexivity].
  rewrite (ltb_asym _ _ E) in E. discriminate.
Qed.

Lemma insort_perm k l : Permutation (insort ltb k l) (k :: l).
Proof.
  induction l as [|h t IH]; simpl.
  - apply Permutation_refl.
  - destruct (ltb h k).
    + eapply perm_trans; [apply perm_skip, IH | apply perm_swap].
    + apply Permutation_refl.
Qed.

Lemma sort_perm l : Permutation (sort ltb l) l.
Proof.
  induction l as [|h t IH]; simpl.
  - constructor.
  - eapply perm_trans; [apply insort_perm | apply perm_skip, IH].
Qed.

Lemma sort_length l : length (sort ltb l) = length l.
Proof. apply Permutation_length, sort_perm. Qed.

Lemma insort_sorted k l :
  StronglySorted le l -> StronglySorted le (insort ltb k l).
Proof.
  induction 1 as [|h t Hs IH Hall]; simpl.
  - repeat constructor.
  - destruct (ltb h k) eqn:E.
    + constructor; [exact IH|].
      apply (Permutation_Forall (Permutation_sym (insort_perm k t))).
      constructor; [|exact Hall]. exact (ltb_asym _ _ E).
    + constructor; [constructor; assumption|].
      constructor; [exact E|].
      eapply Forall_impl; [|exact Hall].
      intros x Hx. exact (le_trans _ _ _ E Hx).
Qed.

Lemma sort_sorted l : StronglySorted le (sort ltb l).
Proof.
  induction l as [|h t IH]; simpl; [constructor | apply insort_sorted, IH].
Qed.

(** A list has one sorted arrangement only. *)
Lemma sorted_perm_eq l1 :
  forall l2, StronglySorted le l1 -> StronglySorted le l2 ->
             Permutation l1 l2 -> l1 = l2.
Proof.
  induction l1 as [|a t1 IH]; intros l2 H1 H2 P.
  - apply Permutation_nil in P. congruence.
  - destruct l2 as [|b t2].
    + apply Permutation_sym, Permutation_nil in P. discriminate.
    + inversion H1 as [|? ? S1 F1]; subst. inversion H2 as [|? ? S2 F2]; subst.
      assert (Hab : le a b).
      { assert (Hin : In b (a :: t1))
          by (apply (Permutation_in _ (Permutation_sym P)); left; reflexivity).
        destruct Hin as [-> | Hin]; [apply le_refl|].
        rewrite Forall_forall in F1. exact (F1 _ Hin). }
      assert (Hba : le b a).
      { assert (Hin : In a (b :: t2))
          by (apply (Permutation_in _ P); left; reflexivity).
        destruct Hin as [-> | Hin]; [apply le_refl|].
        rewrite Forall_forall in F2. exact (F2 _ Hin). }
      assert (a = b) by (apply le_antisym; assumption). subst b.
      f_equal. apply IH; try assumption.
      exact (Permutation_cons_inv P).
Qed.

Lemma sort_of_perm l s :
  StronglySorted le s -> Permutation s l -> sort ltb l = s.
Proof.
  intros Hs P. apply sorted_perm_eq.
  - apply sort_sorted.
  - exact Hs.
  - eapply perm_trans; [apply sort_perm | apply Permutation_sym, P].
Qed.

Lemma sort_sorted_id l : StronglySorted le l -> sort ltb l = l.
Proof. intros H. apply sort_of_perm; [exact H | apply Permutation_refl]. Qed.

End SortFacts.

Lemma ksort_perm (l : list knot) : Permutation (sort knot_ltb l) l.
Proof. apply sort_perm. Qed.

Lemma ksort_sorted (l : list knot) : knots_sorted (sort knot_ltb l).
Proof. apply sort_sorted; [exact knot_ltb_asym | exact knot_le_trans]. Qed.

Lemma ksort_of_perm (l s : list knot) :
  knots_sorted s -> Permutation s l -> sort knot_ltb l = s.
Proof.
  apply sort_of_perm;
    [exact knot_ltb_asym | exact knot_le_trans | exact knot_le_antisym].
Qed.

Lemma knot_le_refl (a : knot) : knot_le a a.
Proof. apply le_refl. exact knot_ltb_asym. Qed.

(** ** [argmin] *)

Lemma argmin_lt_length (l : list Qc) : l <> [] -> (argmin l < length l)%nat.
Proof.
  induction l as [|v r IH]; intros Hne; [congruence|].
  destruct r as [|w r']; [simpl; lia|].
  change (argmin (v :: w :: r')) with
    (if Qc_leb v (nth (argmin (w :: r')) (w :: r') 0) then O
     else S (argmin (w :: r'))).
  assert (argmin (w :: r') < length (w :: r'))%nat by (apply IH; discriminate).
  destruct (Qc_leb _ _); simpl in *; lia.
Qed.

Lemma argmin_le_all (l : list Qc) :
  forall j, (j < length l)%nat -> nth (argmin l) l 0 <= nth j l 0.
Proof.
  induction l as [|v r IH]; intros j Hj; [simpl in Hj; lia|].
  destruct r as [|w r'].
  - destruct j; [apply Qcle_refl | simpl in Hj; lia].
  - change (argmin (v :: w :: r')) with
      (if Qc_leb v (nth (argmin (w :: r')) (w :: r') 0) then O
       else S (argmin (w :: r'))).
    destruct (Qc_leb v (nth (argmin (w :: r')) (w :: r') 0)) eqn:E.
    + apply Qc_leb_le in E. destruct j as [|j']; [apply Qcle_refl|].
      change (v <= nth j' (w :: r') 0).
      eapply Qcle_trans; [exact E|]. apply IH. simpl in *. lia.
    + apply Qc_leb_gt in E. destruct j as [|j'].
      * change (nth (argmin (w :: r')) (w :: r') 0 <= v).
        apply Qclt_le_weak. exact E.
      * change (nth (argmin (w :: r')) (w :: r') 0 <= nth j' (w :: r') 0).
        apply IH. simpl in *. lia.
Qed.

(** Every index before [argmin l] holds a strictly larger value. *)
Lemma argmin_first (l : list Qc) :
  forall j, (j < argmin l)%nat -> nth (argmin l) l 0 < nth j l 0.
Proof.
  induction l as [|v r IH]; intros j Hj; [simpl in Hj; lia|].
  destruct r as [|w r']; [simpl in Hj; lia|].
  revert Hj.
  change (argmin (v :: w :: r')) with
    (if Qc_leb v (nth (argmin (w :: r')) (w :: r') 0) then O
     else S (argmin (w :: r'))).
  destruct (Qc_leb v (nth (argmin (w :: r')) (w :: r') 0)) eqn:E; intros Hj.
  - lia.
  - apply Qc_leb_gt in E. destruct j as [|j'].
    + exact E.
    + change (nth (argmin (w :: r')) (w :: r') 0 < nth j' (w :: r') 0).
      apply IH. lia.
Qed.

(** ** [list.remove] at the nearest knot *)

Lemma remove_first_at (l : list knot) :
  forall i k,
    nth_error l i = Some k ->
    (forall j k', (j < i)%nat -> nth_error l j = Some k' -> k' <> k) ->
    remove_first k l = Some (remove_at i l).
Proof.
  induction l as [|h t IH]; intros i k Hi Hfirst.
  - destruct i; discriminate.
  - destruct i as [|i']; simpl in *.
    + inversion Hi; subst. 
      assert (E : knot_eqb k k = true) by (apply knot_eqb_eq; reflexivity).
      rewrite E. reflexivity.
    + assert (E : knot_eqb h k = false).
      { destruct (knot_eqb h k) eqn:E; [|reflexivity].
        apply knot_eqb_eq in E. exfalso.
        apply (Hfirst O h); [lia | reflexivity | exact E]. }
      rewrite E. rewrite (IH i' k Hi).
      * reflexivity.
      * intros j k' Hj Hk'. apply (Hfirst (S j) k'); [lia | exact Hk'].
Qed.

(** ** Control flow of the handlers *)

Lemma seq_skip_l (s : stmt) (st : InteractiveCoFit) : (skip ;; s) st = s st.
Proof. reflexivity. Qed.

Lemma seq_skip_r (s : stmt) (st : InteractiveCoFit) : (s ;; skip) st = s st.
Proof. unfold seq, skip. destruct (s st) as [st' [| |e]]; reflexivity. Qed.

Lemma key_in_two (k a b : string) :
  key_in k [a; b] = true -> k = a \/ k = b.
Proof.
  unfold key_in. simpl. rewrite !orb_true_iff, !String.eqb_eq.
  intuition discriminate.
Qed.

Ltac key_cases H :=
  apply key_in_two in H; destruct H as [H | H]; rewrite H.

(** ** Midpoints *)

(** Turns an order goal on [Qc] into one on [Q], where [lra] applies. *)
Ltac qc_to_q :=
  unfold Qclt, Qcle in *;
  repeat (progress (unfold Qcplus, Qcminus, Qcmult, Qcopp, dec, Q2Qc;
                    cbn [this]; rewrite ?Qred_correct)).

Lemma half_plus_half : dec 1 2 + dec 1 2 = 1.
Proof. apply Qc_eqb_eq. vm_compute. reflexivity. Qed.

Lemma half_pos : 0 < dec 1 2.
Proof. apply Qc_ltb_lt. vm_compute. reflexivity. Qed.

Lemma midpoint_above (a b : Qc) : a < b -> a < a + dec 1 2 * (b - a).
Proof.
  intros H. apply Qclt_minus_iff.
  replace (a + dec 1 2 * (b - a) + - a) with (dec 1 2 * (b - a)) by ring.
  apply Qclt_minus_iff in H.
  replace (0 : Qc) with (0 * (b - a)) by ring.
  apply Qcmult_lt_compat_r; [exact H | exact half_pos].
Qed.

Lemma midpoint_below (a b : Qc) : a < b -> a + dec 1 2 * (b - a) < b.
Proof.
  intros H. apply Qclt_minus_iff.
  replace (b + - (a + dec 1 2 * (b - a)))
    with ((dec 1 2 + dec 1 2) * (b - a) - dec 1 2 * (b - a))
    by (rewrite half_plus_half; ring).
  replace ((dec 1 2 + dec 1 2) * (b - a) - dec 1 2 * (b - a))
    with (dec 1 2 * (b - a)) by ring.
  apply Qclt_minus_iff in H.
  replace (0 : Qc) with (0 * (b - a)) by ring.
  apply Qcmult_lt_compat_r; [exact H | exact half_pos].
Qed.

(** ** Interleaving the midpoints *)

Lemma lt_x_knot_le (a b : knot) : lt_x a b -> knot_le a b.
Proof. intros H. apply knot_le_spec. left. exact H. Qed.

Lemma lt_x_trans : Relations_1.Transitive lt_x.
Proof. intros a b c. unfold lt_x. apply Qclt_trans. Qed.

Lemma increasing_sorted (l : list knot) :
  wavelengths_increasing l -> knots_sorted l.
Proof.
  intros H. apply Sorted_StronglySorted in H; [|exact lt_x_trans].
  induction H as [|a l Hs IH Hall]; constructor.
  - exact IH.
  - eapply Forall_impl; [|exact Hall]. intros b. apply lt_x_knot_le.
Qed.

Lemma interleave_perm (cps : list knot) :
  forall new, (length new <= length cps)%nat ->
              Permutation (interleave cps new) (cps ++ new).
Proof.
  induction cps as [|c r IH]; intros new Hlen.
  - destruct new; [constructor | simpl in Hlen; lia].
  - destruct new as [|m ms].
    + simpl. rewrite app_nil_r. apply Permutation_refl.
    + simpl. apply perm_skip.
      eapply perm_trans; [apply perm_skip, IH; simpl in Hlen; lia|].
      apply (Permutation_middle r ms m).
Qed.

Lemma interleave_increasing (cps : list knot) :
  forall new,
    wavelengths_increasing cps ->
    map fst new = midpoints (map fst cps) ->
    wavelengths_increasing (interleave cps new).
Proof.
  induction cps as [|c r IH]; intros new Hs Hnew.
  - destruct new; constructor.
  - destruct r as [|c1 r'].
    + destruct new; [exact Hs | discriminate].
    + destruct new as [|m ms]; [discriminate|].
      change (midpoints (map fst (c :: c1 :: r')))
        with ((fst c + dec 1 2 * (fst c1 - fst c))
                :: midpoints (map fst (c1 :: r'))) in Hnew.
      simpl in Hnew. injection Hnew as Hm Hms.
      inversion Hs as [|? ? Hs' Hhd]; subst.
      inversion Hhd as [|? ? Hlt]; subst. unfold lt_x in Hlt.
      specialize (IH ms Hs' Hms).
      change (interleave (c :: c1 :: r') (m :: ms))
        with (c :: m :: interleave (c1 :: r') ms).
      constructor.
      * constructor; [exact IH|].
        assert (Hh : exists t, interleave (c1 :: r') ms = c1 :: t).
        { destruct ms; simpl; eauto. }
        destruct Hh as [t ->]. constructor. unfold lt_x. rewrite Hm.
        apply midpoint_below, Hlt.
      * constructor. unfold lt_x. rewrite Hm. apply midpoint_above, Hlt.
Qed.

Lemma midpoints_length (xs : list Qc) :
  length (midpoints xs) = (length xs - 1)%nat.
Proof.
  induction xs as [|a r IH]; [reflexivity|].
  destruct r as [|b r']; [reflexivity|].
  change (midpoints (a :: b :: r'))
    with ((a + dec 1 2 * (b - a)) :: midpoints (b :: r')).
  simpl length in *. lia.
Qed.

Lemma sort_with_midpoints (cps new : list knot) :
  wavelengths_increasing cps ->
  map fst new = midpoints (map fst cps) ->
  sort knot_ltb (cps ++ new) = interleave cps new.
Proof.
  intros Hs Hnew. apply ksort_of_perm.
  - apply increasing_sorted, interleave_increasing; assumption.
  - apply interleave_perm.
    assert (E : length new = length (midpoints (map fst cps)))
      by (rewrite <- Hnew; symmetry; apply length_map).
    rewrite E, midpoints_length, length_map. unfold knot. lia.
Qed.

(** ** Halving after doubling *)

Lemma halve_interleave (r : list knot) :
  forall m ms d,
    r <> [] -> length ms = (length r - 1)%nat ->
    every_second (removelast (m :: interleave r ms)) = removelast r
    /\ last (interleave r ms) d = last r d.
Proof.
  induction r as [|c r' IH]; intros m ms d Hne Hlen; [congruence|].
  destruct r' as [|c' r''].
  - destruct ms; [|discriminate]. split; reflexivity.
  - destruct ms as [|m' ms']; [discriminate|].
    destruct (IH m' ms' d) as [IH1 IH2]; [discriminate | simpl in *; lia |].
    change (interleave (c :: c' :: r'') (m' :: ms'))
      with (c :: m' :: interleave (c' :: r'') ms').
    assert (Hh : exists t, interleave (c' :: r'') ms' = c' :: t).
    { destruct ms'; simpl; eauto. }
    destruct Hh as [t Ht]. split.
    + change (removelast (m :: c :: m' :: interleave (c' :: r'') ms'))
        with (m :: c :: removelast (m' :: interleave (c' :: r'') ms')).
      change (every_second (m :: c :: removelast (m' :: interleave (c' :: r'') ms')))
        with (c :: every_second (removelast (m' :: interleave (c' :: r'') ms'))).
      rewrite IH1. reflexivity.
    + rewrite Ht in *. exact IH2.
Qed.

(** ** Lists: first and last entries *)

Lemma in_remove_at {A : Type} (x : A) (l : list A) :
  forall i, In x (remove_at i l) -> In x l.
Proof.
  induction l as [|h t IH]; intros i H.
  - destruct i; destruct H.
  - destruct i as [|i'].
    + right. exact H.
    + change (remove_at (S i') (h :: t)) with (h :: remove_at i' t) in H.
      destruct H as [H | H]; [left; exact H | right; apply (IH i' H)].
Qed.

Lemma remove_at_sorted {A : Type} (R : A -> A -> Prop) (l : list A) :
  forall i, StronglySorted R l -> StronglySorted R (remove_at i l).
Proof.
  induction l as [|h t IH]; intros i Hs.
  - destruct i; exact Hs.
  - inversion Hs as [|? ? Hs' Hall]; subst. destruct i as [|i'].
    + exact Hs'.
    + change (remove_at (S i') (h :: t)) with (h :: remove_at i' t).
      constructor; [apply IH, Hs'|].
      rewrite Forall_forall in *. intros x Hx. apply Hall.
      apply (in_remove_at x t i' Hx).
Qed.

Lemma remove_at_hd {A : Type} (l : list A) (i : nat) :
  i <> O -> hd_error (remove_at i l) = hd_error l.
Proof.
  intros Hi. destruct i as [|i']; [congruence|]. destruct l; reflexivity.
Qed.

Lemma remove_at_last {A : Type} (d : A) (l : list A) :
  forall i, (i < length l - 1)%nat -> last (remove_at i l) d = last l d.
Proof.
  induction l as [|h t IH]; intros i Hi; [simpl in Hi; lia|].
  destruct i as [|i'].
  - destruct t; [simpl in Hi; lia | reflexivity].
  - change (remove_at (S i') (h :: t)) with (h :: remove_at i' t).
    destruct t as [|h' t']; [simpl in Hi; lia|].
    assert (Hi' : (i' < length (h' :: t') - 1)%nat) by (simpl in *; lia).
    specialize (IH i' Hi').
    destruct (remove_at i' (h' :: t')) as [|x r] eqn:E.
    + exfalso. destruct i'; [|discriminate].
      destruct t'; [simpl in Hi'; lia | discriminate].
    + change (last (h :: x :: r) d) with (last (x :: r) d).
      rewrite IH. reflexivity.
Qed.

Lemma in_setitem {A : Type} (v e : A) (l : list A) :
  forall i, In e (setitem l i v) -> e = v \/ In e l.
Proof.
  induction l as [|h t IH]; intros i H.
  - destruct i; destruct H.
  - destruct i as [|i']; simpl in H.
    + destruct H as [H | H]; [left; congruence | right; right; exact H].
    + destruct H as [H | H]; [right; left; exact H|].
      destruct (IH i' H); [left | right; right]; assumption.
Qed.

Lemma setitem_keeps {A : Type} (v e : A) (l : list A) :
  forall i j, nth_error l j = Some e -> j <> i -> In e (setitem l i v).
Proof.
  induction l as [|h t IH]; intros i j Hj Hne.
  - destruct j; discriminate.
  - destruct i as [|i'], j as [|j']; simpl in *; try congruence.
    + right. eapply nth_error_In; eauto.
    + left. congruence.
    + right. apply (IH i' j'); [exact Hj | lia].
Qed.

Lemma nth_error_last {A : Type} (d : A) (l : list A) :
  l <> [] -> nth_error l (length l - 1) = Some (last l d).
Proof.
  induction l as [|h t IH]; intros Hne; [congruence|].
  destruct t as [|h' t']; [reflexivity|].
  change (last (h :: h' :: t') d) with (last (h' :: t') d).
  rewrite <- IH by discriminate. simpl. rewrite Nat.sub_0_r. reflexivity.
Qed.

Lemma sorted_below_last (l : list knot) (d e : knot) :
  knots_sorted l -> In e l -> knot_le e (last l d).
Proof.
  induction 1 as [|h t Hs IH Hall]; intros Hin; [destruct Hin|].
  destruct t as [|h' t'].
  - destruct Hin as [<- | []]. apply knot_le_refl.
  - change (last (h :: h' :: t') d) with (last (h' :: t') d).
    destruct Hin as [<- | Hin].
    + rewrite Forall_forall in Hall. apply Hall.
      apply (nth_error_In _ (length (h' :: t') - 1)).
      apply nth_error_last. discriminate.
    + apply IH, Hin.
Qed.

(** The head of a sorted arrangement is the least element. *)
Lemma sorted_hd_least (s l : list knot) (f : knot) :
  knots_sorted s -> Permutation s l -> In f l ->
  (forall e, In e l -> knot_le f e) ->
  hd_error s = Some f.
Proof.
  intros Hs P Hf Hmin.
  assert (Hfs : In f s) by (apply (Permutation_in _ (Permutation_sym P)), Hf).
  destruct s as [|h t]; [destruct Hfs|]. simpl. f_equal.
  apply knot_le_antisym.
  - apply (Hmin h). apply (Permutation_in _ P). left. reflexivity.
  - inversion Hs as [|? ? _ Hall]; subst.
    destruct Hfs as [-> | Hin]; [apply knot_le_refl|].
    rewrite Forall_forall in Hall. apply Hall, Hin.
Qed.

(** The last entry of a sorted arrangement is the greatest element. *)
Lemma sorted_last_greatest (s l : list knot) (d g : knot) :
  knots_sorted s -> Permutation s l -> In g l ->
  (forall e, In e l -> knot_le e g) ->
  last s d = g.
Proof.
  intros Hs P Hg Hmax.
  assert (Hgs : In g s) by (apply (Permutation_in _ (Permutation_sym P)), Hg).
  assert (Hne : s <> []) by (intros ->; destruct Hgs).
  apply knot_le_antisym.
  - apply (sorted_below_last s d g Hs Hgs).
  - apply (Hmax (last s d)). apply (Permutation_in _ P).
    apply (nth_error_In _ (length s - 1)). apply nth_error_last, Hne.
Qed.

(** ** Sublists of a sorted list *)

Lemma in_every_second {A : Type} (x : A) (l : list A) :
  (In x (every_second l) -> In x l)
  /\ forall a, In x (every_second (a :: l)) -> In x l.
Proof.
  induction l as [|b r [IH1 IH2]]; [split; [|intros a]; intros []|].
  split; [intros H; right; exact (IH2 b H)|].
  intros a H. simpl in H. destruct H as [H | H]; [left; exact H | right; exact (IH1 H)].
Qed.

Lemma every_second_sorted {A : Type} (R : A -> A -> Prop) (l : list A) :
  (StronglySorted R l -> StronglySorted R (every_second l))
  /\ forall a, StronglySorted R (a :: l) -> StronglySorted R (every_second (a :: l)).
Proof.
  induction l as [|b r [IH1 IH2]]; [split; [|intros a]; intros _; constructor|].
  split; [apply IH2|].
  intros a H. inversion H as [|? ? Hs _]; subst.
  inversion Hs as [|? ? Hs' Hall]; subst.
  simpl. constructor; [exact (IH1 Hs')|].
  rewrite Forall_forall in *. intros x Hx. apply Hall.
  exact (proj1 (in_every_second x r) Hx).
Qed.

Lemma in_removelast {A : Type} (x : A) (l : list A) :
  In x (removelast l) -> In x l.
Proof.
  induction l as [|a t IH]; [intros []|].
  destruct t as [|b t']; [intros []|].
  change (In x (a :: removelast (b :: t')) -> In x (a :: b :: t')).
  intros [H | H]; [left; exact H | right; exact (IH H)].
Qed.

Lemma removelast_sorted {A : Type} (R : A -> A -> Prop) (l : list A) :
  StronglySorted R l -> StronglySorted R (removelast l).
Proof.
  induction 1 as [|a t Hs IH Hall]; [constructor|].
  destruct t as [|b t']; [constructor|].
  change (StronglySorted R (a :: removelast (b :: t'))).
  constructor; [exact IH|].
  rewrite Forall_forall in *. intros x Hx. apply Hall, in_removelast, Hx.
Qed.

Lemma sorted_snoc {A : Type} (R : A -> A -> Prop) (l : list A) (z : A) :
  StronglySorted R l -> Forall (fun e => R e z) l -> StronglySorted R (l ++ [z]).
Proof.
  induction 1 as [|a t Hs IH Hall]; intros Hz; simpl.
  - repeat constructor.
  - inversion Hz as [|? ? Ha Ht]; subst. constructor; [exact (IH Ht)|].
    apply Forall_app. split; [exact Hall | repeat constructor; exact Ha].
Qed.

(** What ['_'] keeps of a sorted knot list is sorted. *)
Lemma halved_sorted (c0 : knot) (r : list knot) :
  knots_sorted (c0 :: r) ->
  knots_sorted ([c0] ++ every_second (interior (c0 :: r)) ++ [last (c0 :: r) c0]).
Proof.
  intros Hs. inversion Hs as [|? ? Hr Hall]; subst.
  unfold interior. cbn [tl app].
  assert (Hin : forall e, In e (every_second (removelast r)) -> In e r).
  { intros e He. apply in_removelast. exact (proj1 (in_every_second e _) He). }
  constructor.
  - apply sorted_snoc.
    + apply every_second_sorted, removelast_sorted, Hr.
    + rewrite Forall_forall. intros e He.
      apply sorted_below_last; [exact Hs | right; exact (Hin e He)].
  - apply Forall_app. split.
    + rewrite Forall_forall in *. intros e He. apply Hall, Hin, He.
    + repeat constructor. apply sorted_below_last; [exact Hs | left; reflexivity].
Qed.

Lemma remove_at_length {A : Type} (l : list A) :
  forall i, (i < length l)%nat -> length (remove_at i l) = (length l - 1)%nat.
Proof.
  induction l as [|a t IH]; intros i Hi; [simpl in Hi; lia|].
  destruct i as [|i']; [unfold remove_at; simpl; lia|].
  change (remove_at (S i') (a :: t)) with (a :: remove_at i' t).
  simpl in *. rewrite IH by lia. lia.
Qed.

Lemma setitem_length {A : Type} (v : A) (l : list A) :
  forall i, length (setitem l i v) = length l.
Proof.
  induction l as [|a t IH]; intros i; [destruct i; reflexivity|].
  destruct i as [|i']; simpl; [reflexivity | rewrite IH; reflexivity].
Qed.

(** ** Indexing and [searchsorted] *)

Lemma getitem_raises {A : Type} (l : list A) (i : Z) (e : exn) :
  getitem l i = Raise e -> e = IndexError.
Proof.
  unfold getitem. destruct (_ || _)%bool; [congruence|].
  destruct (nth_error _ _); congruence.
Qed.

Lemma getitem_at_length {A : Type} (l : list A) :
  getitem l (Z.of_nat (length l)) = Raise IndexError.
Proof.
  unfold getitem.
  assert (H : (Z.of_nat (length l) <? 0)%Z = false) by (apply Z.ltb_ge; lia).
  rewrite H, Z.leb_refl, orb_true_r. reflexivity.
Qed.

Lemma getitem_first {A : Type} (a : A) (l : list A) : getitem (a :: l) 0 = Ok a.
Proof.
  unfold getitem. cbn [Z.ltb Z.compare].
  assert (H : (Z.of_nat (length (a :: l)) <=? 0)%Z = false)
    by (apply Z.leb_gt; simpl length; lia).
  rewrite H. reflexivity.
Qed.

Lemma getitem_last {A : Type} (d : A) (l : list A) :
  l <> [] -> getitem l (-1) = Ok (last l d).
Proof.
  intros Hne. unfold getitem. cbn [Z.ltb Z.compare].
  assert (Hlen : (0 < length l)%nat) by (destruct l; [congruence | simpl; lia]).
  assert (H1 : (-1 + Z.of_nat (length l) <? 0)%Z = false) by (apply Z.ltb_ge; lia).
  assert (H2 : (Z.of_nat (length l) <=? -1 + Z.of_nat (length l))%Z = false)
    by (apply Z.leb_gt; lia).
  rewrite H1, H2. simpl orb. cbv iota.
  replace (Z.to_nat (-1 + Z.of_nat (length l))) with (length l - 1)%nat by lia.
  rewrite (nth_error_last d l Hne). reflexivity.
Qed.

Lemma searchsorted_le_length (wa0 : list Qc) (v : Qc) :
  (searchsorted wa0 v <= length wa0)%nat.
Proof.
  induction wa0 as [|w r IH]; simpl; [lia|].
  destruct (Qc_ltb w v); simpl; lia.
Qed.

(** On a strictly ascending array, a value at or beyond the last element is
    placed at the last index or after it. *)
Lemma searchsorted_at_end (wa0 : list Qc) (v : Qc) :
  StronglySorted Qclt wa0 -> wa0 <> [] -> last wa0 0 <= v ->
  (length wa0 - 1 <= searchsorted wa0 v)%nat.
Proof.
  induction 1 as [|w r Hs IH Hall]; intros Hne Hv; [congruence|].
  destruct r as [|w' r']; [simpl; lia|].
  change (last (w :: w' :: r') 0) with (last (w' :: r') 0) in Hv.
  assert (Hw : w < v).
  { eapply Qclt_le_trans; [|exact Hv].
    rewrite Forall_forall in Hall. apply Hall.
    apply (nth_error_In _ (length (w' :: r') - 1)).
    apply nth_error_last. discriminate. }
  apply Qc_ltb_lt in Hw.
  change (searchsorted (w :: w' :: r') v)
    with (if Qc_ltb w v then S (searchsorted (w' :: r') v) else O).
  rewrite Hw. specialize (IH ltac:(discriminate) Hv). simpl length in *. lia.
Qed.

Section CoFitFacts.

Variable between : Qc -> Qc -> Qc -> bool.
Variable AkimaSpline : list Qc -> list Qc -> result (Qc -> Qc).
Variable transData : knot -> knot.

Local Abbreviation update := (update AkimaSpline).
Local Abbreviation on_keypress := (on_keypress between AkimaSpline transData).
Local Abbreviation delete_knot := (delete_knot AkimaSpline transData).
Local Abbreviation move_knot := (move_knot between AkimaSpline transData).
Local Abbreviation move_knot_median := (move_knot_median between AkimaSpline transData).
Local Abbreviation add_knot := (add_knot between AkimaSpline).
Local Abbreviation add_knot_median := (add_knot_median between AkimaSpline).
Local Abbreviation double_knots := (double_knots AkimaSpline).
Local Abbreviation halve_knots := (halve_knots AkimaSpline).
Local Abbreviation nearest := (nearest transData).
Local Abbreviation sep := (sep transData).
Local Abbreviation run_events := (run_events between AkimaSpline transData).
Local Abbreviation init := (init AkimaSpline).

(** [update] writes the continuum and nothing else. *)
Lemma update_frame (st : InteractiveCoFit) :
  exists co, fst (update st) = set_continuum st co.
Proof.
  unfold update.
  destruct (3 <=? length _)%nat.
  - destruct (AkimaSpline _ _) as [f | e].
    + destruct (indices st) as [i j].
      destruct (setslice _ _ _ _) as [co | e].
      * exists co. destruct (is_empty _); reflexivity.
      * exists (continuum st). destruct st; reflexivity.
    + exists (continuum st). destruct st; reflexivity.
  - exists (continuum st). destruct st; reflexivity.
Qed.

Lemma update_contpoints (st : InteractiveCoFit) :
  contpoints (fst (update st)) = contpoints st.
Proof. destruct (update_frame st) as [co ->]. reflexivity. Qed.

Lemma assign_update_contpoints (l : list knot) (st : InteractiveCoFit) :
  contpoints (fst ((assign_contpoints (fun _ => l) ;; update) st)) = l.
Proof.
  unfold seq, assign_contpoints.
  destruct (update (set_contpoints st l)) as [st' f] eqn:E.
  assert (H : contpoints st' = l).
  { change st' with (fst (st', f)). rewrite <- E. apply update_contpoints. }
  destruct f; exact H.
Qed.

Lemma assign_then_update (g : InteractiveCoFit -> list knot) (st : InteractiveCoFit) :
  contpoints (fst ((assign_contpoints g ;; update) st)) = g st.
Proof.
  unfold seq, assign_contpoints.
  destruct (update (set_contpoints st (g st))) as [st' f] eqn:E.
  assert (H : contpoints st' = g st).
  { change st' with (fst (st', f)). rewrite <- E. apply update_contpoints. }
  destruct f; exact H.
Qed.

Lemma on_keypress_delete_eq ev st :
  key_in (event.key ev) ["d"; "4"]%string = true ->
  on_keypress ev st =
  if is_main_axes ev then delete_knot ev st else (st, Return).
Proof.
  intros H. unfold on_keypress.
  key_cases H; simpl; rewrite !seq_skip_l; unfold seq, ret, skip;
    destruct (is_main_axes ev); reflexivity.
Qed.

Lemma on_keypress_m_eq ev st :
  event.key ev = "m"%string ->
  on_keypress ev st =
  if is_main_axes ev then move_knot ev st else (st, Return).
Proof.
  intros H. unfold on_keypress. rewrite H. simpl.
  rewrite !seq_skip_l. unfold seq, ret, skip.
  destruct (is_main_axes ev); reflexivity.
Qed.

Lemma on_keypress_M_eq ev st :
  event.key ev = "M"%string ->
  on_keypress ev st =
  if is_main_axes ev then move_knot_median ev st else (st, Return).
Proof.
  intros H. unfold on_keypress. rewrite H. simpl.
  rewrite !seq_skip_l. unfold seq, ret, skip.
  destruct (is_main_axes ev); reflexivity.
Qed.

Lemma on_keypress_add_eq ev st :
  key_in (event.key ev) ["a"; "3"]%string = true ->
  on_keypress ev st =
  if is_main_axes ev then add_knot ev st else (st, Return).
Proof.
  intros H. unfold on_keypress.
  key_cases H; simpl; rewrite !seq_skip_l;
    (destruct (is_main_axes ev); simpl;
     [rewrite seq_skip_l; apply seq_skip_r | reflexivity]).
Qed.

Lemma on_keypress_A_eq ev st :
  event.key ev = "A"%string ->
  on_keypress ev st =
  if is_main_axes ev then add_knot_median ev st else (st, Return).
Proof.
  intros H. unfold on_keypress. rewrite H. simpl.
  rewrite !seq_skip_l. unfold seq, ret, skip.
  destruct (is_main_axes ev); reflexivity.
Qed.

Lemma seq_fst_contpoints (s : stmt) (t : stmt) st :
  (forall st', contpoints (fst (t st')) = contpoints st') ->
  contpoints (fst ((s ;; t) st)) = contpoints (fst (s st)).
Proof.
  intros Ht. unfold seq. destruct (s st) as [st' [| |e]]; simpl; auto.
Qed.

Lemma on_keypress_plus_contpoints ev st :
  event.key ev = "+"%string ->
  contpoints (fst (on_keypress ev st)) = contpoints (fst (double_knots st)).
Proof.
  intros H. unfold on_keypress. rewrite H. simpl.
  apply seq_fst_contpoints. intros st'.
  rewrite !seq_skip_l. unfold seq, ret, skip.
  destruct (is_main_axes ev); reflexivity.
Qed.

Lemma on_keypress_minus_contpoints ev st :
  event.key ev = "_"%string ->
  contpoints (fst (on_keypress ev st)) = contpoints (fst (halve_knots st)).
Proof.
  intros H. unfold on_keypress. rewrite H. simpl.
  rewrite !seq_skip_l.
  apply seq_fst_contpoints. intros st'.
  unfold seq, ret, skip.
  destruct (is_main_axes ev); reflexivity.
Qed.

(** ** Finding the nearest knot *)

Lemma nearest_in_range ev (cps : list knot) :
  cps <> [] -> (nearest ev cps < length cps)%nat.
Proof.
  intros Hne. unfold nearest.
  rewrite <- (length_map (sep ev) cps). apply argmin_lt_length.
  destruct cps; [congruence | discriminate].
Qed.

Lemma nth_sep ev (cps : list knot) i k :
  nth_error cps i = Some k -> nth i (map (sep ev) cps) 0 = sep ev k.
Proof.
  intros H. apply nth_error_nth. rewrite nth_error_map, H. reflexivity.
Qed.

Lemma nearest_minimal ev (cps : list knot) k k' :
  nth_error cps (nearest ev cps) = Some k -> In k' cps ->
  sep ev k <= sep ev k'.
Proof.
  intros Hk Hin. apply In_nth_error in Hin. destruct Hin as [j Hj].
  rewrite <- (nth_sep ev cps _ _ Hk), <- (nth_sep ev cps _ _ Hj).
  apply argmin_le_all. rewrite length_map.
  apply nth_error_Some. congruence.
Qed.

Lemma nearest_first_occurrence ev (cps : list knot) k :
  nth_error cps (nearest ev cps) = Some k ->
  forall j k', (j < nearest ev cps)%nat -> nth_error cps j = Some k' -> k' <> k.
Proof.
  intros Hk j k' Hj Hk' ->.
  pose proof (argmin_first (map (sep ev) cps) j Hj) as Hlt.
  fold (nearest ev cps) in Hlt.
  rewrite (nth_sep ev cps _ _ Hk), (nth_sep ev cps _ _ Hk') in Hlt.
  exact (Qclt_not_eq _ _ Hlt eq_refl).
Qed.

(** The [list.remove] call of the delete branch removes the knot at the
    index [argmin] returned. *)
Lemma remove_nearest ev (cps : list knot) k :
  nth_error cps (nearest ev cps) = Some k ->
  remove_first k cps = Some (remove_at (nearest ev cps) cps).
Proof.
  intros Hk. apply remove_first_at; [exact Hk|].
  apply nearest_first_occurrence. exact Hk.
Qed.

Lemma delete_knot_contpoints ev st :
  contpoints (fst (delete_knot ev st)) =
  if (length (contpoints st) <? 3)%nat
     || is_edge (nearest ev (contpoints st)) (contpoints st)
  then contpoints st
  else remove_at (nearest ev (contpoints st)) (contpoints st).
Proof.
  unfold delete_knot.
  destruct (length (contpoints st) <? 3)%nat eqn:Hlen; [reflexivity|]. simpl.
  destruct (is_edge _ _) eqn:Hedge; [reflexivity|].
  assert (Hne : contpoints st <> []).
  { intros E. rewrite E in Hlen. discriminate. }
  pose proof (nearest_in_range ev _ Hne) as Hr.
  destruct (nth_error (contpoints st) (nearest ev (contpoints st))) as [k|] eqn:Hk.
  - rewrite (remove_nearest ev _ k Hk). apply assign_update_contpoints.
  - apply nth_error_None in Hk. lia.
Qed.

(** C3: a delete event (['d'] or ['4']) inside the main axes removes the
    knot at the index with the least screen distance to the cursor, and
    only that one; with fewer than 3 knots, or when that index is the first
    or the last of the list, the knot list stays as it is. *)
Theorem delete_removes_nearest ev st :
  key_in (event.key ev) ["d"; "4"]%string = true ->
  is_main_axes ev = true ->
  let cps := contpoints st in
  let ind := nearest ev cps in
  contpoints (fst (on_keypress ev st)) =
    (if (length cps <? 3)%nat || is_edge ind cps then cps
     else remove_at ind cps)
  /\ (forall k k', nth_error cps ind = Some k -> In k' cps ->
                   sep ev k <= sep ev k').
Proof.
  intros Hkey Hax cps ind. split.
  - rewrite (on_keypress_delete_eq ev st Hkey), Hax.
    apply delete_knot_contpoints.
  - intros k k'. apply nearest_minimal.
Qed.

(** ** Rejected edits *)

Lemma x_in_knots_nonempty x (cps : list knot) :
  x_in_knots x cps = true -> is_empty cps = false.
Proof. destruct cps; [discriminate | reflexivity]. Qed.

Lemma add_knot_rejected ev st :
  between (event.xdata ev) (wmin st) (wmax st) = false
  \/ x_in_knots (event.xdata ev) (contpoints st) = true ->
  fst (add_knot ev st) = st.
Proof.
  intros H. unfold add_knot, outside_region.
  destruct (between _ _ _); simpl; [|reflexivity].
  destruct H as [H | H]; [discriminate|].
  rewrite H, (x_in_knots_nonempty _ _ H). reflexivity.
Qed.

Lemma add_knot_median_rejected ev st :
  between (event.xdata ev) (wmin st) (wmax st) = false
  \/ x_in_knots (event.xdata ev) (contpoints st) = true ->
  fst (add_knot_median ev st) = st.
Proof.
  intros H. unfold add_knot_median, outside_region.
  destruct (between _ _ _); simpl; [|reflexivity].
  destruct H as [H | H]; [discriminate|].
  rewrite H, (x_in_knots_nonempty _ _ H). reflexivity.
Qed.

Lemma delete_knot_rejected ev st :
  (length (contpoints st) < 3)%nat
  \/ is_edge (nearest ev (contpoints st)) (contpoints st) = true ->
  fst (delete_knot ev st) = st.
Proof.
  intros H. unfold delete_knot.
  destruct (length (contpoints st) <? 3)%nat eqn:Hlen; [reflexivity|].
  apply Nat.ltb_ge in Hlen.
  destruct H as [H | H]; [lia|]. rewrite H. reflexivity.
Qed.

Lemma move_knot_rejected ev st :
  between (event.xdata ev) (wmin st) (wmax st) = false
  \/ is_edge (nearest ev (contpoints st)) (contpoints st) = true ->
  fst (move_knot ev st) = st.
Proof.
  intros H. unfold move_knot, outside_region.
  destruct (between _ _ _); simpl; [|reflexivity].
  destruct H as [H | H]; [discriminate|].
  destruct (is_empty (contpoints st)); [reflexivity|].
  rewrite H. reflexivity.
Qed.

Lemma move_knot_median_rejected ev st :
  between (event.xdata ev) (wmin st) (wmax st) = false
  \/ is_edge (nearest ev (contpoints st)) (contpoints st) = true ->
  fst (move_knot_median ev st) = st.
Proof.
  intros H. unfold move_knot_median, outside_region.
  destruct (between _ _ _); simpl; [|reflexivity].
  destruct H as [H | H]; [discriminate|].
  destruct (is_empty (contpoints st)); [reflexivity|].
  rewrite H. reflexivity.
Qed.

Lemma on_keypress_a3 ev st :
  In (event.key ev) ["a"; "3"]%string ->
  fst (on_keypress ev st) = if is_main_axes ev then fst (add_knot ev st) else st.
Proof.
  intros H. rewrite on_keypress_add_eq.
  - destruct (is_main_axes ev); reflexivity.
  - simpl in H. destruct H as [<- | [<- | []]]; reflexivity.
Qed.

Lemma on_keypress_d4 ev st :
  In (event.key ev) ["d"; "4"]%string ->
  fst (on_keypress ev st) = if is_main_axes ev then fst (delete_knot ev st) else st.
Proof.
  intros H. rewrite on_keypress_delete_eq.
  - destruct (is_main_axes ev); reflexivity.
  - simpl in H. destruct H as [<- | [<- | []]]; reflexivity.
Qed.

Lemma if_same {A : Type} (b : bool) (x : A) : (if b then x else x) = x.
Proof. destruct b; reflexivity. Qed.

Lemma rejected_state_unchanged ev st :
  rejected between transData st ev -> fst (on_keypress ev st) = st.
Proof.
  intros [Hk Hw | Hk Hn | Hk Hd | Hk He].
  - simpl in Hk. destruct Hk as [Hk | [Hk | [Hk | [Hk | [Hk | []]]]]].
    + rewrite on_keypress_a3 by (rewrite <- Hk; simpl; auto).
      rewrite add_knot_rejected by auto. apply if_same.
    + rewrite on_keypress_a3 by (rewrite <- Hk; simpl; auto).
      rewrite add_knot_rejected by auto. apply if_same.
    + rewrite on_keypress_A_eq by auto.
      destruct (is_main_axes ev); [|reflexivity].
      apply add_knot_median_rejected; auto.
    + rewrite on_keypress_m_eq by auto.
      destruct (is_main_axes ev); [|reflexivity].
      apply move_knot_rejected; auto.
    + rewrite on_keypress_M_eq by auto.
      destruct (is_main_axes ev); [|reflexivity].
      apply move_knot_median_rejected; auto.
  - rewrite on_keypress_d4 by exact Hk.
    rewrite delete_knot_rejected by auto. apply if_same.
  - simpl in Hk. destruct Hk as [Hk | [Hk | [Hk | []]]].
    + rewrite on_keypress_a3 by (rewrite <- Hk; simpl; auto).
      rewrite add_knot_rejected by auto. apply if_same.
    + rewrite on_keypress_a3 by (rewrite <- Hk; simpl; auto).
      rewrite add_knot_rejected by auto. apply if_same.
    + rewrite on_keypress_A_eq by auto.
      destruct (is_main_axes ev); [|reflexivity].
      apply add_knot_median_rejected; auto.
  - simpl in Hk. destruct Hk as [Hk | [Hk | [Hk | [Hk | []]]]].
    + rewrite on_keypress_d4 by (rewrite <- Hk; simpl; auto).
      rewrite delete_knot_rejected by auto. apply if_same.
    + rewrite on_keypress_d4 by (rewrite <- Hk; simpl; auto).
      rewrite delete_knot_rejected by auto. apply if_same.
    + rewrite on_keypress_m_eq by auto.
      destruct (is_main_axes ev); [|reflexivity].
      apply move_knot_rejected; auto.
    + rewrite on_keypress_M_eq by auto.
      destruct (is_main_axes ev); [|reflexivity].
      apply move_knot_median_rejected; auto.
Qed.

(** C9: a rejected add, delete or move event leaves the knot list, the
    continuum array and the fitting-window indices as they were. *)
Theorem rejected_edit_no_mutation ev st :
  rejected between transData st ev ->
  let st' := fst (on_keypress ev st) in
  contpoints st' = contpoints st
  /\ continuum st' = continuum st
  /\ indices st' = indices st.
Proof.
  intros H st'. subst st'. rewrite (rejected_state_unchanged ev st H).
  repeat split.
Qed.

(** ** Key ['M'] at the wavelength of an existing knot *)

(** C10: key ['M'] inside the main axes and the fitting window, with the
    cursor at the wavelength of an existing knot and the nearest knot not
    the first or last, raises [UnboundLocalError], a [NameError], and the
    object is left as it was: [y] was never assigned. *)
Theorem move_median_duplicate_x_raises ev st :
  event.key ev = "M"%string ->
  is_main_axes ev = true ->
  between (event.xdata ev) (wmin st) (wmax st) = true ->
  x_in_knots (event.xdata ev) (contpoints st) = true ->
  is_edge (nearest ev (contpoints st)) (contpoints st) = false ->
  on_keypress ev st = (st, Raised UnboundLocalError)
  /\ isinstance_NameError UnboundLocalError = true.
Proof.
  intros Hk Hax Hin Hdup Hedge. split; [|reflexivity].
  rewrite (on_keypress_M_eq ev st Hk), Hax.
  unfold move_knot_median, outside_region.
  rewrite Hin, (x_in_knots_nonempty _ _ Hdup), Hedge, Hdup. reflexivity.
Qed.

(** ** Adding a knot and deleting it again *)

Lemma sort_snoc (l : list knot) (k : knot) :
  knots_sorted l -> sort knot_ltb (l ++ [k]) = insort knot_ltb k l.
Proof.
  intros Hs. apply ksort_of_perm.
  - apply insort_sorted; [exact knot_ltb_asym | exact knot_le_trans | exact Hs].
  - eapply perm_trans; [apply insort_perm|].
    apply Permutation_cons_append.
Qed.

Lemma remove_first_insort (l : list knot) (k : knot) :
  x_in_knots (fst k) l = false ->
  remove_first k (insort knot_ltb k l) = Some l.
Proof.
  induction l as [|h t IH]; intros Hx.
  - simpl. rewrite (proj2 (knot_eqb_eq k k) eq_refl). reflexivity.
  - unfold x_in_knots in Hx. simpl in Hx. apply orb_false_iff in Hx.
    destruct Hx as [Hh Ht]. simpl.
    destruct (knot_ltb h k).
    + simpl.
      assert (E : knot_eqb h k = false).
      { unfold knot_eqb. apply andb_false_iff. left.
        apply Qc_eqb_neq. apply Qc_eqb_neq in Hh. congruence. }
      rewrite E, (IH Ht). reflexivity.
    + simpl. rewrite (proj2 (knot_eqb_eq k k) eq_refl). reflexivity.
Qed.

Lemma add_knot_contpoints ev st :
  between (event.xdata ev) (wmin st) (wmax st) = true ->
  x_in_knots (event.xdata ev) (contpoints st) = false ->
  contpoints (fst (add_knot ev st)) =
  sort knot_ltb (contpoints st ++ [(event.xdata ev, event.ydata ev)]).
Proof.
  intros Hin Hx. unfold add_knot, outside_region. rewrite Hin, Hx. simpl.
  rewrite orb_true_r.
  apply (assign_update_contpoints
           (sort knot_ltb (contpoints st ++ [(event.xdata ev, event.ydata ev)]))).
Qed.

(** C6: on a sorted knot list, adding a knot with ['a'] at a wavelength
    inside the fitting window that no knot has, and then deleting with ['d']
    while that knot is the nearest one, at least 3 knots are present and it
    is neither first nor last, gives back the knot list from before the
    add. *)
Theorem add_then_delete_roundtrip ev_a ev_d st :
  knots_sorted (contpoints st) ->
  key_in (event.key ev_a) ["a"; "3"]%string = true ->
  is_main_axes ev_a = true ->
  between (event.xdata ev_a) (wmin st) (wmax st) = true ->
  x_in_knots (event.xdata ev_a) (contpoints st) = false ->
  let st1 := fst (on_keypress ev_a st) in
  key_in (event.key ev_d) ["d"; "4"]%string = true ->
  is_main_axes ev_d = true ->
  (3 <= length (contpoints st1))%nat ->
  nth_error (contpoints st1) (nearest ev_d (contpoints st1))
    = Some (event.xdata ev_a, event.ydata ev_a) ->
  is_edge (nearest ev_d (contpoints st1)) (contpoints st1) = false ->
  contpoints (fst (on_keypress ev_d st1)) = contpoints st.
Proof.
  intros Hs Hka Haxa Hin Hx st1 Hkd Haxd Hlen Hnear Hedge.
  assert (H1 : contpoints st1 =
               insort knot_ltb (event.xdata ev_a, event.ydata ev_a) (contpoints st)).
  { subst st1. rewrite (on_keypress_add_eq ev_a st Hka), Haxa.
    rewrite (add_knot_contpoints ev_a st Hin Hx). apply sort_snoc, Hs. }
  rewrite (on_keypress_delete_eq ev_d st1 Hkd), Haxd.
  rewrite delete_knot_contpoints.
  apply Nat.ltb_ge in Hlen. rewrite Hlen, Hedge. simpl.
  pose proof (remove_nearest ev_d _ _ Hnear) as Hr.
  rewrite H1 in Hr at 1.
  rewrite remove_first_insort in Hr by exact Hx.
  congruence.
Qed.

(** ** Doubling the knots *)

Lemma double_knots_contpoints st :
  contpoints st <> [] ->
  contpoints (fst (double_knots st)) =
  let cps := contpoints st in
  let xnew := midpoints (map fst cps) in
  let ynew := map (fun x => interp x cps) xnew in
  let ynew := map (fun xy => local_median (wa st) (fl st) (er st) (fst xy) (snd xy))
                  (combine xnew ynew) in
  sort knot_ltb (cps ++ combine xnew ynew).
Proof.
  intros Hne. unfold double_knots.
  destruct (contpoints st) as [|c r] eqn:E; [congruence|].
  apply assign_update_contpoints.
Qed.

(** C4: from the two knots (4000, 1.0) and (5000, 0.9) alone, one ['+']
    event adds exactly one knot, at wavelength 4500 with y = 0.95, the
    linear interpolation between the two, when no usable flux lies within
    10 pixels of 4500. *)
Theorem double_two_anchors ev st :
  event.key ev = "+"%string ->
  contpoints st = [(dec 4000 1, dec 1 1); (dec 5000 1, dec 9 10)] ->
  good_window (wa st) (fl st) (er st) (dec 4500 1) = [] ->
  contpoints (fst (on_keypress ev st)) =
  [(dec 4000 1, dec 1 1); (dec 4500 1, dec 95 100); (dec 5000 1, dec 9 10)].
Proof.
  intros Hk Hc Hg.
  rewrite (on_keypress_plus_contpoints ev st Hk).
  rewrite double_knots_contpoints by (rewrite Hc; discriminate).
  rewrite Hc. cbn [map fst snd midpoints combine app].
  assert (Hx : dec 4000 1 + dec 1 2 * (dec 5000 1 - dec 4000 1) = dec 4500 1)
    by (apply Qc_eqb_eq; vm_compute; reflexivity).
  rewrite Hx.
  assert (Hy : interp (dec 4500 1)
                 [(dec 4000 1, dec 1 1); (dec 5000 1, dec 9 10)] = dec 95 100)
    by (apply Qc_eqb_eq; vm_compute; reflexivity).
  rewrite Hy. unfold local_median. rewrite Hg.
  apply knots_eqb_eq. vm_compute. reflexivity.
Qed.

(** ** Doubling, then halving *)

Lemma map_fst_combine_eq {A B : Type} (xs : list A) :
  forall ys : list B, length xs = length ys -> map fst (combine xs ys) = xs.
Proof.
  induction xs as [|x r IH]; intros [|y ys] H; try discriminate; simpl.
  - reflexivity.
  - rewrite IH; [reflexivity | simpl in H; lia].
Qed.

(** The wavelengths of the knots that ['+'] adds are the midpoints. *)
Lemma new_knots_wavelengths (xnew : list Qc) (f : Qc -> Qc) (g : Qc * Qc -> Qc) :
  map fst (combine xnew (map g (combine xnew (map f xnew)))) = xnew.
Proof.
  apply map_fst_combine_eq.
  rewrite length_map, length_combine, length_map. lia.
Qed.

Lemma double_knots_increasing st :
  wavelengths_increasing (contpoints st) ->
  contpoints st <> [] ->
  exists new,
    length new = (length (contpoints st) - 1)%nat
    /\ contpoints (fst (double_knots st)) = interleave (contpoints st) new.
Proof.
  intros Hs Hne. rewrite (double_knots_contpoints st Hne). cbv zeta.
  set (xnew := midpoints (map fst (contpoints st))).
  set (new := combine xnew _).
  assert (Hnew : map fst new = xnew) by apply new_knots_wavelengths.
  exists new. split.
  - transitivity (length (map fst new)); [symmetry; apply length_map|].
    rewrite Hnew. unfold xnew.
    rewrite midpoints_length, length_map. reflexivity.
  - apply sort_with_midpoints; assumption.
Qed.

Lemma halve_knots_contpoints st c0 r :
  contpoints st = c0 :: r ->
  contpoints (fst (halve_knots st)) =
  [c0] ++ every_second (interior (c0 :: r)) ++ [last (c0 :: r) c0].
Proof.
  intros E. unfold halve_knots. rewrite E.
  apply (assign_update_contpoints
           ([c0] ++ every_second (interior (c0 :: r)) ++ [last (c0 :: r) c0])).
Qed.

Lemma halve_of_interleave (c0 : knot) (r new : list knot) :
  r <> [] -> length new = length r ->
  [c0] ++ every_second (interior (interleave (c0 :: r) new))
       ++ [last (interleave (c0 :: r) new) c0]
  = c0 :: r.
Proof.
  intros Hne Hlen. destruct new as [|m ms].
  - destruct r; [congruence | discriminate].
  - change (interleave (c0 :: r) (m :: ms)) with (c0 :: m :: interleave r ms).
    destruct (halve_interleave r m ms c0 Hne) as [H1 H2];
      [simpl in Hlen; lia|].
    unfold interior. cbn [tl]. rewrite H1.
    assert (Hh : exists h t, interleave r ms = h :: t).
    { destruct r as [|h t]; [congruence|]. destruct ms; simpl; eauto. }
    destruct Hh as [h [t Ht]].
    replace (last (c0 :: m :: interleave r ms) c0) with (last (interleave r ms) c0)
      by (rewrite Ht; reflexivity).
    rewrite H2. simpl. f_equal. symmetry. apply app_removelast_last, Hne.
Qed.

(** On strictly increasing wavelengths ['+'] followed by ['_'] gives the
    knot list back. *)
Lemma double_then_halve_identity ev_plus ev_minus st :
  event.key ev_plus = "+"%string ->
  event.key ev_minus = "_"%string ->
  wavelengths_increasing (contpoints st) ->
  (2 <= length (contpoints st))%nat ->
  contpoints (fst (on_keypress ev_minus (fst (on_keypress ev_plus st))))
  = contpoints st.
Proof.
  intros Hp Hm Hs Hlen.
  set (st1 := fst (on_keypress ev_plus st)).
  rewrite (on_keypress_minus_contpoints ev_minus st1 Hm).
  destruct (contpoints st) as [|c0 r] eqn:E; [simpl in Hlen; lia|].
  assert (Hr : r <> []) by (destruct r; [simpl in Hlen; lia | discriminate]).
  destruct (double_knots_increasing st) as [new [Hn H1]];
    [rewrite E; exact Hs | rewrite E; discriminate |].
  rewrite E in Hn, H1.
  assert (E1 : contpoints st1 = interleave (c0 :: r) new).
  { unfold st1. rewrite (on_keypress_plus_contpoints ev_plus st Hp). exact H1. }
  assert (Hh : exists t, interleave (c0 :: r) new = c0 :: t).
  { destruct new; simpl; eauto. }
  destruct Hh as [t Ht].
  rewrite (halve_knots_contpoints st1 c0 t) by (rewrite E1; exact Ht).
  rewrite <- Ht. apply halve_of_interleave; [exact Hr | simpl in Hn; lia].
Qed.

(** The midpoints stay above a bound that the first wavelength meets and
    the later ones exceed. *)
Lemma midpoints_above (xs : list Qc) (lo : Qc) :
  match xs with
  | [] => True
  | a :: r => lo <= a /\ Forall (fun x => lo < x) r
  end ->
  Forall (fun m => lo < m) (midpoints xs).
Proof.
  induction xs as [|a r IH]; intros H; [constructor|].
  destruct r as [|b r']; [constructor|].
  destruct H as [Ha Hr]. inversion Hr as [|? ? Hb Hr']; subst.
  change (midpoints (a :: b :: r'))
    with ((a + dec 1 2 * (b - a)) :: midpoints (b :: r')).
  constructor.
  - qc_to_q. lra.
  - apply IH. split; [apply Qclt_le_weak, Hb | exact Hr'].
Qed.

(** The midpoints stay below a bound that the last wavelength meets and the
    earlier ones stay under. *)
Lemma midpoints_below (xs : list Qc) (hi : Qc) :
  Forall (fun x => x < hi) (removelast xs) ->
  Forall (fun x => x <= hi) xs ->
  Forall (fun m => m < hi) (midpoints xs).
Proof.
  induction xs as [|a r IH]; intros H1 H2; [constructor|].
  destruct r as [|b r']; [constructor|].
  change (removelast (a :: b :: r')) with (a :: removelast (b :: r')) in H1.
  inversion H1 as [|? ? Ha H1']; subst.
  inversion H2 as [|? ? _ H2']; subst.
  inversion H2' as [|? ? Hb _]; subst.
  change (midpoints (a :: b :: r'))
    with ((a + dec 1 2 * (b - a)) :: midpoints (b :: r')).
  constructor.
  - qc_to_q. lra.
  - apply IH; assumption.
Qed.

Lemma removelast_map {A B : Type} (g : A -> B) (l : list A) :
  removelast (map g l) = map g (removelast l).
Proof.
  induction l as [|a t IH]; [reflexivity|].
  destruct t as [|b t']; [reflexivity|].
  change (g a :: removelast (map g (b :: t')) = g a :: map g (removelast (b :: t'))).
  rewrite IH. reflexivity.
Qed.

Lemma every_second_length {A : Type} (l : list A) :
  length (every_second l) = Nat.div2 (length l)
  /\ forall a, length (every_second (a :: l)) = Nat.div2 (S (length l)).
Proof.
  induction l as [|b r [IH1 IH2]]; [split; reflexivity|].
  split; [apply IH2|].
  intros a. simpl. f_equal. exact IH1.
Qed.

Lemma interior_length {A : Type} (l : list A) :
  length (interior l) = (length l - 2)%nat.
Proof.
  unfold interior. destruct l as [|a t]; [reflexivity|]. cbn [tl].
  destruct t as [|b t']; [reflexivity|].
  rewrite (app_removelast_last b (l := b :: t')) at 2 by discriminate.
  simpl length. rewrite length_app. simpl. lia.
Qed.

Lemma last_default {A : Type} (l : list A) (d d' : A) :
  l <> [] -> last l d = last l d'.
Proof.
  induction l as [|a t IH]; intros Hne; [congruence|].
  destruct t as [|b t']; [reflexivity|].
  change (last (b :: t') d = last (b :: t') d'). apply IH. discriminate.
Qed.

Lemma in_removelast_or_last {A : Type} (l : list A) (d e : A) :
  In e l -> e = last l d \/ In e (removelast l).
Proof.
  intros He. assert (Hne : l <> []) by (intros ->; destruct He).
  rewrite (app_removelast_last d Hne) in He.
  apply in_app_or in He. destruct He as [He | [<- | []]]; auto.
Qed.

(** After ['+'] on a knot list whose first and last wavelengths are strict
    extremes, the first and last knots are where they were, and there are
    [2n - 1] knots. *)
Lemma double_knots_keeps_anchors st (f : knot) (rest : list knot) :
  contpoints st = f :: rest ->
  anchors_strict (contpoints st) ->
  let cps' := contpoints (fst (double_knots st)) in
  hd_error cps' = Some f
  /\ last cps' f = last (contpoints st) f
  /\ length cps' = (length (contpoints st) + (length (contpoints st) - 1))%nat.
Proof.
  intros E Hstrict cps'. subst cps'.
  assert (Hne : contpoints st <> []) by (rewrite E; discriminate).
  rewrite (double_knots_contpoints st Hne). cbv zeta.
  set (xnew := midpoints (map fst (contpoints st))).
  set (new := combine xnew _).
  assert (Hnew : map fst new = xnew) by apply new_knots_wavelengths.
  unfold anchors_strict in Hstrict. rewrite E in Hstrict.
  destruct Hstrict as [Hlo Hhi]. rewrite <- E in Hhi.
  set (l := last (contpoints st) f) in *.
  assert (Habove : Forall (fun m => fst f < m) xnew).
  { unfold xnew. apply midpoints_above. rewrite E. simpl. split.
    - apply Qcle_refl.
    - rewrite Forall_forall in *. intros x Hx.
      apply in_map_iff in Hx. destruct Hx as [k [<- Hk]]. apply Hlo, Hk. }
  assert (Hbelow : Forall (fun m => m < fst l) xnew).
  { unfold xnew. apply midpoints_below.
    - rewrite removelast_map. rewrite Forall_forall in *. intros x Hx.
      apply in_map_iff in Hx. destruct Hx as [k [<- Hk]]. apply Hhi, Hk.
    - rewrite Forall_forall in *. intros x Hx.
      apply in_map_iff in Hx. destruct Hx as [k [<- Hk]].
      destruct (in_removelast_or_last _ f k Hk) as [-> | Hk'].
      + apply Qcle_refl.
      + apply Qclt_le_weak, Hhi, Hk'. }
  assert (Hnew_in : forall e, In e new -> fst f < fst e /\ fst e < fst l).
  { intros e He.
    assert (Hx : In (fst e) xnew) by (rewrite <- Hnew; apply in_map, He).
    rewrite Forall_forall in Habove, Hbelow. auto. }
  split; [|split].
  - apply (sorted_hd_least _ (contpoints st ++ new) f).
    + apply ksort_sorted.
    + apply ksort_perm.
    + apply in_or_app. left. rewrite E. left. reflexivity.
    + intros e He. apply in_app_or in He. destruct He as [He | He].
      * rewrite E in He. destruct He as [<- | He]; [apply knot_le_refl|].
        apply lt_x_knot_le. rewrite Forall_forall in Hlo. apply Hlo, He.
      * apply lt_x_knot_le. apply (Hnew_in e He).
  - apply (sorted_last_greatest _ (contpoints st ++ new) f l).
    + apply ksort_sorted.
    + apply ksort_perm.
    + apply in_or_app. left. unfold l.
      apply (nth_error_In _ (length (contpoints st) - 1)).
      apply nth_error_last, Hne.
    + intros e He. apply in_app_or in He. destruct He as [He | He].
      * destruct (in_removelast_or_last _ f e He) as [-> | He'].
        -- apply knot_le_refl.
        -- apply lt_x_knot_le. rewrite Forall_forall in Hhi. apply Hhi, He'.
      * apply lt_x_knot_le. apply (Hnew_in e He).
  - rewrite sort_length, length_app. f_equal.
    transitivity (length (map fst new)); [symmetry; apply length_map|].
    rewrite Hnew. unfold xnew. rewrite midpoints_length, length_map. reflexivity.
Qed.

(** C5 (as amended): for a sorted knot list in which the wavelength of the
    first knot lies strictly below, and that of the last knot strictly
    above, the wavelengths of all other knots, and which has N knots
    between its first and its last entry, ['+'] followed by ['_'] yields a
    knot list with the same first and last entries and at most N knots
    between them. *)
Theorem double_then_halve_bounded ev_plus ev_minus st :
  event.key ev_plus = "+"%string ->
  event.key ev_minus = "_"%string ->
  knots_sorted (contpoints st) ->
  anchors_strict (contpoints st) ->
  let cps := contpoints st in
  let cps' := contpoints (fst (on_keypress ev_minus (fst (on_keypress ev_plus st)))) in
  hd_error cps' = hd_error cps
  /\ last cps' (0, 0) = last cps (0, 0)
  /\ (length (interior cps') <= length (interior cps))%nat.
Proof.
  intros Hp Hm _ Hstrict cps cps'. subst cps cps'.
  set (st1 := fst (on_keypress ev_plus st)).
  rewrite (on_keypress_minus_contpoints ev_minus st1 Hm).
  destruct (contpoints st) as [|f rest] eqn:E; [destruct Hstrict|].
  rewrite <- E in Hstrict.
  destruct (double_knots_keeps_anchors st f rest E Hstrict) as [Hhd [Hlast Hlen]].
  rewrite <- (on_keypress_plus_contpoints ev_plus st Hp) in Hhd, Hlast, Hlen.
  fold st1 in Hhd, Hlast, Hlen. rewrite E in Hlast, Hlen.
  destruct (contpoints st1) as [|c0 t] eqn:E1; [discriminate|].
  simpl in Hhd. injection Hhd as ->.
  rewrite (halve_knots_contpoints st1 f t E1).
  split; [reflexivity|]. split.
  - rewrite app_assoc, last_last.
    rewrite (last_default (f :: rest) (0, 0) f) by discriminate.
    exact Hlast.
  - unfold interior at 1. cbn [app tl]. rewrite removelast_last.
    rewrite (proj1 (every_second_length _)), !interior_length, Hlen.
    rewrite Nat.div2_div. simpl length.
    destruct (length rest) as [|r]; [reflexivity|].
    replace (S (S r) + (S (S r) - 1) - 2)%nat with (1 + r * 2)%nat by lia.
    rewrite Nat.div_add by lia. simpl. lia.
Qed.

(** ** The first and the last knot under delete and move events *)

Lemma is_edge_false (ind : nat) (cps : list knot) :
  is_edge ind cps = false -> ind <> O /\ ind <> (length cps - 1)%nat.
Proof.
  unfold is_edge. rewrite orb_false_iff, !Nat.eqb_neq. tauto.
Qed.

Lemma moved_keeps_anchors (cps : list knot) (f l k : knot) (ind : nat) :
  knots_sorted cps ->
  hd_error cps = Some f -> last cps f = l ->
  ind <> O -> ind <> (length cps - 1)%nat ->
  fst f < fst k -> fst k < fst l ->
  let s := sort knot_ltb (setitem cps ind k) in
  knots_sorted s /\ hd_error s = Some f /\ last s f = l.
Proof.
  intros Hs Hf Hl Hi0 HiN Hfk Hkl s.
  assert (Hne : cps <> []) by (intros E; rewrite E in Hf; discriminate).
  assert (Hf0 : nth_error cps O = Some f) by (destruct cps; [discriminate | exact Hf]).
  assert (HlN : nth_error cps (length cps - 1) = Some l)
    by (rewrite <- Hl; apply nth_error_last, Hne).
  assert (Hmin : forall e, In e cps -> knot_le f e).
  { intros e He. destruct cps as [|h t]; [destruct He|].
    simpl in Hf. injection Hf as ->.
    inversion Hs as [|? ? _ Hall]; subst.
    destruct He as [<- | He]; [apply knot_le_refl|].
    rewrite Forall_forall in Hall. apply Hall, He. }
  assert (Hmax : forall e, In e cps -> knot_le e l).
  { intros e He. rewrite <- Hl. apply sorted_below_last; assumption. }
  split; [apply ksort_sorted|]. split.
  - apply (sorted_hd_least s (setitem cps ind k) f).
    + apply ksort_sorted.
    + apply ksort_perm.
    + apply (setitem_keeps k f cps ind O Hf0). congruence.
    + intros e He. destruct (in_setitem k e cps ind He) as [-> | Hin].
      * apply lt_x_knot_le. exact Hfk.
      * apply Hmin, Hin.
  - apply (sorted_last_greatest s (setitem cps ind k) f l).
    + apply ksort_sorted.
    + apply ksort_perm.
    + apply (setitem_keeps k l cps ind _ HlN). congruence.
    + intros e He. destruct (in_setitem k e cps ind He) as [-> | Hin].
      * apply lt_x_knot_le. exact Hkl.
      * apply Hmax, Hin.
Qed.

Lemma deleted_keeps_anchors (cps : list knot) (f l : knot) (ind : nat) :
  knots_sorted cps ->
  hd_error cps = Some f -> last cps f = l ->
  (ind < length cps)%nat -> ind <> O -> ind <> (length cps - 1)%nat ->
  let s := remove_at ind cps in
  knots_sorted s /\ hd_error s = Some f /\ last s f = l.
Proof.
  intros Hs Hf Hl Hi Hi0 HiN s. subst s. split; [|split].
  - apply remove_at_sorted, Hs.
  - rewrite remove_at_hd by exact Hi0. exact Hf.
  - rewrite remove_at_last by lia. exact Hl.
Qed.

Lemma move_knot_contpoints ev st :
  contpoints (fst (move_knot ev st)) = contpoints st
  \/ (is_edge (nearest ev (contpoints st)) (contpoints st) = false
      /\ contpoints (fst (move_knot ev st)) =
         sort knot_ltb (setitem (contpoints st) (nearest ev (contpoints st))
                                (event.xdata ev, event.ydata ev))).
Proof.
  unfold move_knot.
  destruct (outside_region between ev st); [left; reflexivity|].
  destruct (is_empty (contpoints st)); [left; reflexivity|].
  destruct (is_edge _ _) eqn:E; [left; reflexivity|].
  right. split; [reflexivity|].
  apply (assign_update_contpoints
           (sort knot_ltb (setitem (contpoints st) (nearest ev (contpoints st))
                                   (event.xdata ev, event.ydata ev)))).
Qed.

Lemma move_knot_median_contpoints ev st :
  contpoints (fst (move_knot_median ev st)) = contpoints st
  \/ (is_edge (nearest ev (contpoints st)) (contpoints st) = false
      /\ exists y,
         contpoints (fst (move_knot_median ev st)) =
         sort knot_ltb (setitem (contpoints st) (nearest ev (contpoints st))
                                (event.xdata ev, y))).
Proof.
  unfold move_knot_median.
  destruct (outside_region between ev st); [left; reflexivity|].
  destruct (is_empty (contpoints st)); [left; reflexivity|].
  destruct (is_edge _ _) eqn:E; [left; reflexivity|].
  simpl. destruct (negb (x_in_knots _ _)); [|left; reflexivity].
  right. split; [reflexivity|].
  exists (local_median (wa st) (fl st) (er st) (event.xdata ev) (event.ydata ev)).
  apply (assign_update_contpoints
           (sort knot_ltb
              (setitem (contpoints st) (nearest ev (contpoints st))
                 (event.xdata ev,
                  local_median (wa st) (fl st) (er st) (event.xdata ev)
                               (event.ydata ev))))).
Qed.

Lemma step_keeps_anchors ev st (f l : knot) :
  knots_sorted (contpoints st) ->
  hd_error (contpoints st) = Some f -> last (contpoints st) f = l ->
  delete_or_inner_move between transData f l st ev ->
  let cps' := contpoints (fst (on_keypress ev st)) in
  knots_sorted cps' /\ hd_error cps' = Some f /\ last cps' f = l.
Proof.
  intros Hs Hf Hl [Hk Hx] cps'. subst cps'.
  assert (Hne : contpoints st <> [])
    by (intros E; rewrite E in Hf; discriminate).
  simpl in Hk. destruct Hk as [Hk | [Hk | [Hk | [Hk | []]]]].
  1, 2:
    rewrite on_keypress_d4 by (rewrite <- Hk; simpl; auto);
    destruct (is_main_axes ev); [|auto];
    rewrite delete_knot_contpoints;
    destruct (_ || _) eqn:E; [auto|];
    apply orb_false_iff in E; destruct E as [_ E];
    apply is_edge_false in E; destruct E as [E0 EN];
    apply deleted_keeps_anchors; auto;
    apply nearest_in_range, Hne.
  - rewrite on_keypress_m_eq by auto.
    destruct (is_main_axes ev); [|auto].
    destruct Hx as [Hx | [Hx | [Hx1 Hx2]]]; [rewrite <- Hk; simpl; auto | | |].
    + destruct (move_knot_contpoints ev st) as [-> | [E ->]]; [auto | congruence].
    + unfold move_knot, outside_region. rewrite Hx. auto.
    + destruct (move_knot_contpoints ev st) as [-> | [E ->]]; [auto|].
      apply is_edge_false in E. destruct E as [E0 EN].
      apply moved_keeps_anchors; auto.
  - rewrite on_keypress_M_eq by auto.
    destruct (is_main_axes ev); [|auto].
    destruct Hx as [Hx | [Hx | [Hx1 Hx2]]]; [rewrite <- Hk; simpl; auto | | |].
    + destruct (move_knot_median_contpoints ev st) as [-> | [E [y ->]]];
        [auto | congruence].
    + unfold move_knot_median, outside_region. rewrite Hx. auto.
    + destruct (move_knot_median_contpoints ev st) as [-> | [E [y ->]]]; [auto|].
      apply is_edge_false in E. destruct E as [E0 EN].
      apply moved_keeps_anchors; auto.
Qed.

(** What the two guards of the move and delete handlers do protect: on a
    sorted knot list, after any sequence of delete events, of move events
    that the handler turns away (the nearest knot is the first or the last
    one, or the cursor is outside the fitting window) and of move events
    with the cursor wavelength strictly between the wavelengths of the first
    and the last knot, the first and the last entry of the knot list are
    what they were before. *)
Theorem edge_anchors_kept (evs : list event.t) : forall st (f l : knot),
  knots_sorted (contpoints st) ->
  hd_error (contpoints st) = Some f -> last (contpoints st) f = l ->
  deletes_and_inner_moves between AkimaSpline transData f l evs st ->
  hd_error (contpoints (run_events evs st)) = Some f
  /\ last (contpoints (run_events evs st)) f = l.
Proof.
  induction evs as [|ev evs IH]; intros st f l Hs Hf Hl Hall.
  - split; assumption.
  - destruct Hall as [Hev Hrest].
    destruct (step_keeps_anchors ev st f l Hs Hf Hl Hev) as [Hs' [Hf' Hl']].
    apply (IH (fst (on_keypress ev st))); assumption.
Qed.

(** ** The invariant of the knot list under the handlers *)

Lemma keeps_skip : keeps_invariant skip.
Proof. intros st H. exact H. Qed.

Lemma keeps_ret : keeps_invariant ret.
Proof. intros st H. exact H. Qed.

Lemma keeps_seq (s1 s2 : stmt) :
  keeps_invariant s1 -> keeps_invariant s2 -> keeps_invariant (s1 ;; s2).
Proof.
  intros H1 H2 st H. unfold seq.
  specialize (H1 st H). destruct (s1 st) as [st' [| |e]]; simpl in *; auto.
Qed.

Lemma keeps_if (b : bool) (s1 s2 : stmt) :
  keeps_invariant s1 -> keeps_invariant s2 ->
  keeps_invariant (if b then s1 else s2).
Proof. destruct b; auto. Qed.

Lemma keeps_double_knots : keeps_invariant double_knots.
Proof.
  intros st [Hs Hlen]. unfold knots_invariant.
  assert (Hne : contpoints st <> [])
    by (intros E; rewrite E in Hlen; simpl in Hlen; lia).
  rewrite (double_knots_contpoints st Hne). cbv zeta. split.
  - apply ksort_sorted.
  - rewrite sort_length, length_app. lia.
Qed.

Lemma keeps_halve_knots : keeps_invariant halve_knots.
Proof.
  intros st [Hs Hlen]. unfold knots_invariant.
  destruct (contpoints st) as [|c0 r] eqn:E; [simpl in Hlen; lia|].
  rewrite (halve_knots_contpoints st c0 r E). split.
  - apply halved_sorted, Hs.
  - rewrite !length_app. simpl. lia.
Qed.

Lemma keeps_add_knot ev : keeps_invariant (add_knot ev).
Proof.
  intros st [Hs Hlen]. unfold knots_invariant, add_knot.
  destruct (outside_region between ev st); [auto|].
  destruct (_ || _); [|auto].
  rewrite assign_then_update.
  split; [apply ksort_sorted|].
  rewrite sort_length, length_app. lia.
Qed.

Lemma keeps_add_knot_median ev : keeps_invariant (add_knot_median ev).
Proof.
  intros st [Hs Hlen]. unfold knots_invariant, add_knot_median.
  destruct (outside_region between ev st); [auto|].
  destruct (_ || _); [|auto].
  rewrite assign_then_update.
  split; [apply ksort_sorted|].
  rewrite sort_length, length_app. lia.
Qed.

Lemma keeps_delete_knot ev : keeps_invariant (delete_knot ev).
Proof.
  intros st [Hs Hlen]. unfold knots_invariant.
  rewrite delete_knot_contpoints.
  destruct (length (contpoints st) <? 3)%nat eqn:E3; [auto|].
  destruct (is_edge _ _); [auto|]. simpl.
  apply Nat.ltb_ge in E3. split.
  - apply remove_at_sorted, Hs.
  - rewrite remove_at_length; [lia|].
    apply nearest_in_range. intros E. rewrite E in Hlen. simpl in Hlen. lia.
Qed.

Lemma keeps_move_knot ev : keeps_invariant (move_knot ev).
Proof.
  intros st [Hs Hlen]. unfold knots_invariant.
  destruct (move_knot_contpoints ev st) as [-> | [_ ->]]; [auto|].
  split; [apply ksort_sorted|].
  rewrite sort_length, setitem_length. exact Hlen.
Qed.

Lemma keeps_move_knot_median ev : keeps_invariant (move_knot_median ev).
Proof.
  intros st [Hs Hlen]. unfold knots_invariant.
  destruct (move_knot_median_contpoints ev st) as [-> | [_ [y ->]]]; [auto|].
  split; [apply ksort_sorted|].
  rewrite sort_length, setitem_length. exact Hlen.
Qed.

(** Every key event, the edits among them, keeps the knot list sorted and
    at two knots or more. *)
Lemma on_keypress_keeps_invariant ev : keeps_invariant (on_keypress ev).
Proof.
  unfold on_keypress.
  destruct (event.key ev =? "q")%string; [intros st H; exact H|].
  repeat first
    [ apply keeps_seq | apply keeps_if | apply keeps_skip | apply keeps_ret
    | apply keeps_double_knots | apply keeps_halve_knots
    | apply keeps_add_knot | apply keeps_add_knot_median
    | apply keeps_delete_knot | apply keeps_move_knot
    | apply keeps_move_knot_median ].
Qed.

(** ** Initialisation *)

(** C2 (the code at the failing inputs): with the largest knot wavelength
    equal to the last spectrum wavelength, and with it beyond the last
    spectrum wavelength, [__init__] raises [IndexError]: the window's upper
    index is set to [len(wa)] and [wa] is read there. *)
Theorem init_raises_at_upper_end :
  init (grid [1; 2; 3; 4; 5]%Z) (flat_flux (dec 1 1) 5) (ones 5)
       [(dec 2 1, dec 1 1); (dec 3 1, dec 1 1); (dec 5 1, dec 1 1)]
       (Some (ones 5))
  = Raise IndexError
  /\
  init (grid [1; 2; 3; 4; 5]%Z) (flat_flux (dec 1 1) 5) (ones 5)
       [(dec 2 1, dec 1 1); (dec 3 1, dec 1 1); (dec 7 1, dec 1 1)]
       (Some (ones 5))
  = Raise IndexError.
Proof. split; vm_compute; reflexivity. Qed.

(** The failure above is systematic: on a strictly ascending spectrum,
    whenever some knot lies at or beyond the last wavelength, [__init__]
    raises [IndexError]. *)
Lemma init_raises_beyond_upper_end wa0 fl0 er0 (cps : list knot) co (k : knot) :
  StronglySorted Qclt wa0 -> wa0 <> [] ->
  In k cps -> last wa0 0 <= fst k ->
  init wa0 fl0 er0 cps co = Raise IndexError.
Proof.
  intros Hasc Hne Hk Hlast.
  assert (Hks : In k (sort knot_ltb cps))
    by (apply (Permutation_in _ (Permutation_sym (ksort_perm cps))), Hk).
  destruct (sort knot_ltb cps) as [|c0 t] eqn:Es; [destruct Hks|].
  unfold init, bind. rewrite Es, getitem_first.
  rewrite (getitem_last c0) by discriminate. cbv zeta.
  set (cN := last (c0 :: t) c0).
  assert (HcN : last wa0 0 <= fst cN).
  { eapply Qcle_trans; [exact Hlast|].
    assert (Hle : knot_le k cN).
    { apply sorted_below_last; [|exact Hks]. rewrite <- Es. apply ksort_sorted. }
    apply knot_le_spec in Hle.
    destruct Hle as [Hle | [Hle _]]; [apply Qclt_le_weak, Hle | rewrite Hle; apply Qcle_refl]. }
  pose proof (searchsorted_at_end wa0 (fst cN) Hasc Hne HcN) as Hlo.
  pose proof (searchsorted_le_length wa0 (fst cN)) as Hhi.
  assert (Hi2 :
    (if ((Z.of_nat (searchsorted wa0 (fst cN)) =? Z.of_nat (length wa0) - 1)
         || (Z.of_nat (searchsorted wa0 (fst cN)) <? 0))%Z
     then Z.of_nat (length wa0)
     else Z.of_nat (searchsorted wa0 (fst cN)))
    = Z.of_nat (length wa0)).
  { destruct (Z.of_nat (searchsorted wa0 (fst cN)) =? Z.of_nat (length wa0) - 1)%Z
      eqn:E; [reflexivity|].
    apply Z.eqb_neq in E. simpl orb.
    destruct (Z.of_nat (searchsorted wa0 (fst cN)) <? 0)%Z; [reflexivity|].
    f_equal. destruct wa0; [congruence|]. simpl length in *. lia. }
  rewrite Hi2.
  destruct (getitem wa0 _) as [w1|e] eqn:E1;
    [|apply getitem_raises in E1; subst; reflexivity].
  destruct (getitem (setitem _ _ _) _) as [cN'|e] eqn:E2;
    [|apply getitem_raises in E2; subst; reflexivity].
  rewrite getitem_at_length. reflexivity.
Qed.

(** C7 (the code at the failing input): two knots closer to each other than
    one pixel at the lower end.  [__init__] sorts the knots, then moves the
    first one up to the pixel [wa[i1]], past the second one, and does not
    sort again: the object is built and its knot list is out of order. *)
Theorem init_leaves_knots_unsorted (f : Qc -> Qc) :
  AkimaSpline (grid [10; 20; 15; 40; 50]%Z) (ones 5) = Ok f ->
  exists st,
    init (grid [0; 10; 20; 30; 40; 50]%Z) (flat_flux (dec 1 1) 6) (ones 6)
         [(dec 12 1, dec 1 1); (dec 15 1, dec 1 1); (dec 35 1, dec 1 1)]
         (Some (ones 6))
    = Ok st
    /\ contpoints st = [(dec 20 1, dec 1 1); (dec 15 1, dec 1 1); (dec 40 1, dec 1 1)]
    /\ ~ sorted_by_wavelength (contpoints st).
Proof.
  intros H. vm_compute in H.
  eexists. split; [vm_compute; rewrite H; reflexivity|].
  split; [reflexivity|].
  cbn [contpoints]. intros Hs.
  inversion Hs as [|? ? _ Hall]; subst.
  inversion Hall as [|? ? Hle _]; subst.
  apply Qc_leb_le in Hle. vm_compute in Hle. discriminate.
Qed.

End CoFitFacts.

(** ** Navigation: zooming in *)

Section NavigationFacts.

Variable between : Qc -> Qc -> Qc -> bool.
Variable get_flux_plotrange : list (option Qc) -> Qc * Qc.
Variable wa0 : list Qc.
Variable fl0 : list (option Qc).

Local Abbreviation on_keypress_navigate :=
  (on_keypress_navigate between get_flux_plotrange wa0 fl0).

(** Key ['i'] inside an axes: the new window is centred on the cursor and
    reaches 0.275 of the old width to each side. *)
Lemma navigate_zoom_in (ev : event.t) (ax : Axes) :
  event.key ev = "i"%string ->
  truthy (event.inaxes ev) = true ->
  on_keypress_navigate ev ax =
  Ok (set_xlim ax
        (event.xdata ev - dec 275 1000 * Qc_abs (snd (xlim ax) - fst (xlim ax)))
        (event.xdata ev + dec 275 1000 * Qc_abs (snd (xlim ax) - fst (xlim ax)))).
Proof.
  intros Hk Hin. unfold on_keypress_navigate.
  rewrite Hk, Hin. simpl. destruct (xlim ax) as [x0 x1]. reflexivity.
Qed.

(** C1 (as amended): key ['i'] inside the axes with x-limits (4000, 5000)
    and the cursor at x = 4500 sets the x-limits to
    (4500 - 0.275*1000, 4500 + 0.275*1000) = (4225, 4775) and leaves the
    y-limits alone. *)
Theorem zoom_in_4000_5000_at_4500 (ev : event.t) (ax : Axes) :
  event.key ev = "i"%string ->
  truthy (event.inaxes ev) = true ->
  xlim ax = (dec 4000 1, dec 5000 1) ->
  event.xdata ev = dec 4500 1 ->
  on_keypress_navigate ev ax = Ok (set_xlim ax (dec 4225 1) (dec 4775 1)).
Proof.
  intros Hk Hin Hlim Hx.
  rewrite (navigate_zoom_in ev ax Hk Hin), Hlim, Hx. simpl.
  assert (E1 : dec 4500 1 - dec 275 1000 * Qc_abs (dec 5000 1 - dec 4000 1)
               = dec 4225 1)
    by (apply Qc_eqb_eq; vm_compute; reflexivity).
  assert (E2 : dec 4500 1 + dec 275 1000 * Qc_abs (dec 5000 1 - dec 4000 1)
               = dec 4775 1)
    by (apply Qc_eqb_eq; vm_compute; reflexivity).
  rewrite E1, E2. reflexivity.
Qed.

End NavigationFacts.

(** * Further properties of the module *)

(** ** Arithmetic on [Qc] *)

(** Closes an order goal on [Qc] from order hypotheses, through [Q]. *)
Ltac qc_lra :=
  unfold Qclt, Qcle in *;
  repeat (progress (unfold Qcplus, Qcminus, Qcmult, Qcopp, dec, Q2Qc in *;
                    cbn [this] in *; rewrite ?Qred_correct in * ));
  lra.

(** Closes an equation of [Qc] that holds in every field. *)
Ltac qc_eq :=
  apply Qc_is_canon;
  repeat (progress (unfold Qcplus, Qcminus, Qcmult, Qcopp, dec, Q2Qc;
                    cbn [this]; rewrite ?Qred_correct));
  lra.

Lemma Qc_abs_nonneg (a : Qc) : 0 <= a -> Qc_abs a = a.
Proof.
  intros H. unfold Qc_abs. destruct (Qc_ltb a 0) eqn:E; [|reflexivity].
  apply Qc_ltb_lt in E. exfalso. exact (Qcle_not_lt _ _ H E).
Qed.

Lemma Qc_abs_pos (a : Qc) : 0 <= Qc_abs a.
Proof.
  unfold Qc_abs. destruct (Qc_ltb a 0) eqn:E.
  - apply Qc_ltb_lt in E. qc_lra.
  - apply Qc_ltb_ge in E. exact E.
Qed.

(** ** Navigation *)

Section NavigationMore.

Variable between : Qc -> Qc -> Qc -> bool.
Variable get_flux_plotrange : list (option Qc) -> Qc * Qc.
Variable wa0 : list Qc.
Variable fl0 : list (option Qc).

Local Abbreviation on_keypress_navigate :=
  (on_keypress_navigate between get_flux_plotrange wa0 fl0).

(** X1: with the cursor outside every axes, each key but the two pan keys
    and ['w'] leaves the axes limits as they are. *)
Theorem navigate_outside_axes (ev : event.t) (ax : Axes) :
  event.inaxes ev = None ->
  ~ In (event.key ev) ["]"; "["; "w"]%string ->
  on_keypress_navigate ev ax = Ok ax.
Proof.
  intros Hin Hk. unfold on_keypress_navigate. rewrite Hin. cbn [truthy].
  rewrite !andb_false_r.
  assert (H1 : (event.key ev =? "]")%string = false)
    by (apply String.eqb_neq; intros E; apply Hk; rewrite E; simpl; auto).
  assert (H2 : (event.key ev =? "[")%string = false)
    by (apply String.eqb_neq; intros E; apply Hk; rewrite E; simpl; auto).
  assert (H3 : (event.key ev =? "w")%string = false)
    by (apply String.eqb_neq; intros E; apply Hk; rewrite E; simpl; auto).
  rewrite H1, H2, H3. reflexivity.
Qed.

(** A key that is none of the eleven navigation keys leaves the axes
    limits as they are; so no edit key of the continuum fit moves the
    view. *)
Lemma navigate_other_key (ev : event.t) (ax : Axes) :
  ~ In (event.key ev)
       ["i"; "o"; "Y"; "y"; "]"; "["; "w"; "b"; "t"; "l"; "r"]%string ->
  on_keypress_navigate ev ax = Ok ax.
Proof.
  intros Hk. unfold on_keypress_navigate.
  repeat match goal with
  | |- context [(event.key ev =? ?s)%string] =>
      let E := fresh "E" in
      destruct (event.key ev =? s)%string eqn:E;
      [apply String.eqb_eq in E; exfalso; apply Hk; rewrite E; simpl; tauto|]
  end.
  reflexivity.
Qed.

(** X3: over exact arithmetic, with the floats of the source read as
    rationals and no rounding, zooming in or out keeps the cursor in the
    middle of the new window, leaves the y-limits alone, and scales the
    width of the window by 0.55 (in) or 1.9 (out).  In binary64 the centre
    and the width hold up to rounding only. *)
Theorem zoom_keeps_cursor_central (ev : event.t) (ax : Axes) :
  In (event.key ev) ["i"; "o"]%string ->
  truthy (event.inaxes ev) = true ->
  exists a b,
    on_keypress_navigate ev ax = Ok (mkAxes (a, b) (ylim ax))
    /\ a + b = event.xdata ev + event.xdata ev
    /\ a <= b
    /\ b - a = (if (event.key ev =? "i")%string then dec 55 100 else dec 19 10)
               * Qc_abs (snd (xlim ax) - fst (xlim ax)).
Proof.
  intros Hk Hin. unfold on_keypress_navigate. rewrite Hin.
  destruct (xlim ax) as [x0 x1]. cbn [fst snd].
  pose proof (Qc_abs_pos (x1 - x0)) as Hpos.
  set (dx := Qc_abs (x1 - x0)) in *. clearbody dx.
  destruct Hk as [Hk | [Hk | []]]; rewrite <- Hk; cbn [String.eqb Ascii.eqb Bool.eqb andb];
    eexists; eexists; (split; [reflexivity|]); (split; [|split]).
  all: try qc_eq.
  all: qc_lra.
Qed.

(** X4: on axes that run from left to right, panning right and then left
    gives the x-limits back, and so does panning left and then right. *)
Theorem pan_there_and_back (ev_right ev_left : event.t) (ax : Axes) :
  event.key ev_right = "]"%string ->
  event.key ev_left = "["%string ->
  fst (xlim ax) <= snd (xlim ax) ->
  (exists ax1, on_keypress_navigate ev_right ax = Ok ax1
               /\ on_keypress_navigate ev_left ax1 = Ok ax)
  /\ (exists ax2, on_keypress_navigate ev_left ax = Ok ax2
                  /\ on_keypress_navigate ev_right ax2 = Ok ax).
Proof.
  intros Hr Hl Hle. destruct ax as [[x0 x1] yl]. cbn [xlim fst snd] in Hle.
  assert (Hdx : Qc_abs (x1 - x0) = x1 - x0)
    by (apply Qc_abs_nonneg; qc_lra).
  split; eexists; (split; [unfold on_keypress_navigate; rewrite ?Hr, ?Hl;
                           cbn [String.eqb Ascii.eqb Bool.eqb andb xlim];
                           reflexivity|]);
    unfold on_keypress_navigate, set_xlim; rewrite ?Hr, ?Hl;
    cbn [String.eqb Ascii.eqb Bool.eqb andb xlim ylim]; rewrite Hdx.
  - assert (Hw : x1 + dec 9 10 * (x1 - x0) - (x1 - dec 1 10 * (x1 - x0)) = x1 - x0)
      by qc_eq.
    rewrite Hw, Hdx. do 3 f_equal; qc_eq.
  - assert (Hw : x0 + dec 1 10 * (x1 - x0) - (x0 - dec 9 10 * (x1 - x0)) = x1 - x0)
      by qc_eq.
    rewrite Hw, Hdx. do 3 f_equal; qc_eq.
Qed.

(** X5: the keys that act on the x-axis never change the y-limits, and the
    keys that act on the y-axis never change the x-limits. *)
Theorem navigate_one_axis (ev : event.t) (ax ax' : Axes) :
  on_keypress_navigate ev ax = Ok ax' ->
  (In (event.key ev) ["i"; "o"; "]"; "["; "l"; "r"]%string -> ylim ax' = ylim ax)
  /\ (In (event.key ev) ["Y"; "y"; "b"; "t"]%string -> xlim ax' = xlim ax).
Proof.
  intros H. unfold on_keypress_navigate in H.
  destruct (xlim ax) as [x0 x1] eqn:Ex, (ylim ax) as [y0 y1] eqn:Ey.
  destruct (get_flux_plotrange (mask_select _ _ _)) as [p0 p1].
  split; intros Hk; simpl in Hk;
    repeat (destruct Hk as [Hk | Hk]; [|]); try contradiction;
    rewrite <- Hk in H; cbn [String.eqb Ascii.eqb Bool.eqb andb] in H;
    destruct (truthy (event.inaxes ev)); injection H as <-;
    cbn [set_xlim set_ylim xlim ylim]; congruence.
Qed.

End NavigationMore.

(** ** Smoothing *)

Lemma of_nat_S (k : nat) : of_nat (S k) = of_nat k + 1.
Proof.
  unfold of_nat. rewrite Nat2Z.inj_succ. unfold Z.succ.
  apply Qc_is_canon. unfold Qcplus, Q2Qc. cbn [this].
  rewrite !Qred_correct, inject_Z_plus. reflexivity.
Qed.

Lemma of_nat_nonneg (k : nat) : 0 <= of_nat k.
Proof.
  induction k as [|k IH]; [apply Qc_leb_le; reflexivity|].
  rewrite of_nat_S. qc_lra.
Qed.

Section SmoothFacts.

Variable convolve_psf : list (option Qc) -> Qc -> list (option Qc).
Variable raw_fl : list (option Qc).

Local Abbreviation on_keypress_smooth := (on_keypress_smooth convolve_psf raw_fl).
Local Abbreviation run_smooth := (run_smooth convolve_psf raw_fl).

Lemma run_smooth_snoc (evs : list event.t) (ev : event.t) (s : Smoothing) :
  run_smooth (evs ++ [ev]) s = on_keypress_smooth ev (run_smooth evs s).
Proof. unfold run_smooth. rewrite fold_left_app. reflexivity. Qed.

(** X6: whatever keys were pressed since the plot was made, the flux line
    shows either the raw flux, with smoothing width 0, or the raw flux
    smoothed once with the current width, which is then 1 at least:
    smoothing is never applied on top of smoothing. *)
Theorem smoothing_is_of_raw_flux (evs : list event.t) :
  let s := run_smooth evs (unsmoothed raw_fl) in
  (nsmooth s = 0 /\ fl_ydata s = raw_fl)
  \/ (1 <= nsmooth s /\ fl_ydata s = convolve_psf raw_fl (nsmooth s)).
Proof.
  induction evs as [|ev evs IH] using rev_ind; [left; split; reflexivity|].
  cbv zeta in *. rewrite run_smooth_snoc.
  set (s := run_smooth evs (unsmoothed raw_fl)) in *.
  unfold on_keypress_smooth.
  destruct (event.key ev =? "S")%string.
  - right. cbn [nsmooth fl_ydata]. split; [|reflexivity].
    destruct IH as [[H0 _] | [H1 _]].
    + rewrite H0. apply Qc_leb_le. vm_compute. reflexivity.
    + assert (Hpos : Qc_ltb 0 (nsmooth s) = true) by (apply Qc_ltb_lt; qc_lra).
      rewrite Hpos. qc_lra.
  - destruct (event.key ev =? "U")%string; [left; split; reflexivity | exact IH].
Qed.

(** X7: pressing ['S'] k + 1 times on a fresh plot sets the smoothing
    width to 1 + k/2: the first press gives 1, each further one adds a
    half. *)
Theorem smoothing_width_after_presses (ev : event.t) (k : nat) :
  event.key ev = "S"%string ->
  nsmooth (run_smooth (repeat ev (S k)) (unsmoothed raw_fl))
  = 1 + of_nat k * dec 1 2.
Proof.
  intros Hk. induction k as [|k IH].
  - unfold run_smooth. simpl fold_left. unfold on_keypress_smooth.
    rewrite Hk. apply Qc_eqb_eq. vm_compute. reflexivity.
  - replace (repeat ev (S (S k))) with (repeat ev (S k) ++ [ev])
      by (symmetry; apply (repeat_cons (S k) ev)).
    rewrite run_smooth_snoc.
    set (s := run_smooth (repeat ev (S k)) (unsmoothed raw_fl)) in *.
    unfold on_keypress_smooth. rewrite Hk. cbn [String.eqb Ascii.eqb Bool.eqb nsmooth].
    pose proof (of_nat_nonneg k) as Hn.
    assert (Hpos : Qc_ltb 0 (nsmooth s) = true)
      by (apply Qc_ltb_lt; rewrite IH; qc_lra).
    rewrite Hpos, IH, of_nat_S. qc_eq.
Qed.

End SmoothFacts.

(** ** What the key handler of the continuum fit leaves alone *)

Section CoFitMore.

Variable between : Qc -> Qc -> Qc -> bool.
Variable AkimaSpline : list Qc -> list Qc -> result (Qc -> Qc).
Variable transData : knot -> knot.

Local Abbreviation update := (update AkimaSpline).
Local Abbreviation on_keypress := (on_keypress between AkimaSpline transData).
Local Abbreviation delete_knot := (delete_knot AkimaSpline transData).
Local Abbreviation move_knot := (move_knot between AkimaSpline transData).
Local Abbreviation move_knot_median := (move_knot_median between AkimaSpline transData).
Local Abbreviation add_knot := (add_knot between AkimaSpline).
Local Abbreviation add_knot_median := (add_knot_median between AkimaSpline).
Local Abbreviation double_knots := (double_knots AkimaSpline).
Local Abbreviation halve_knots := (halve_knots AkimaSpline).
Local Abbreviation nearest := (nearest transData).
Local Abbreviation run_events := (run_events between AkimaSpline transData).
Local Abbreviation init := (init AkimaSpline).

Lemma same_window_refl st : same_window st st.
Proof. repeat split. Qed.

Lemma same_window_trans st1 st2 st3 :
  same_window st1 st2 -> same_window st2 st3 -> same_window st1 st3.
Proof.
  unfold same_window. intros H1 H2.
  repeat match goal with H : _ /\ _ |- _ => destruct H end.
  repeat split; congruence.
Qed.

Lemma edits_only_stop (f : flow) : edits_only (fun st => (st, f)).
Proof. intros st. split; [apply same_window_refl | reflexivity]. Qed.

Lemma edits_only_update : edits_only update.
Proof.
  intros st. destruct (update_frame AkimaSpline st) as [co ->].
  split; [repeat split | reflexivity].
Qed.

Lemma edits_only_seq (s1 s2 : stmt) :
  edits_only s1 -> edits_only s2 -> edits_only (s1 ;; s2).
Proof.
  intros H1 H2 st. unfold seq. specialize (H1 st).
  destruct (s1 st) as [st' [| |e]]; cbn [fst] in *; try exact H1.
  destruct H1 as [Hw Hf]. destruct (H2 st') as [Hw' Hf'].
  split; [eapply same_window_trans; eassumption | congruence].
Qed.

Lemma edits_only_assign (g : InteractiveCoFit -> list knot) :
  edits_only (assign_contpoints g).
Proof. intros st. split; [repeat split | reflexivity]. Qed.

Lemma edits_only_if (b : bool) (s1 s2 : stmt) :
  edits_only s1 -> edits_only s2 -> edits_only (if b then s1 else s2).
Proof. destruct b; auto. Qed.

(** Closes [edits_only] for a handler branch: every path ends the handler
    at once or assigns the knot list and calls [update]. *)
Ltac edits_only_branch :=
  intros st;
  repeat match goal with
  | |- context [match ?x with _ => _ end] => destruct x
  end;
  first [ apply (edits_only_stop _ st)
        | apply (edits_only_seq _ _ (edits_only_assign _) edits_only_update st) ].

Lemma edits_only_double_knots : edits_only double_knots.
Proof. unfold double_knots. edits_only_branch. Qed.

Lemma edits_only_halve_knots : edits_only halve_knots.
Proof. unfold halve_knots. edits_only_branch. Qed.

Lemma edits_only_add_knot ev : edits_only (add_knot ev).
Proof. unfold add_knot. edits_only_branch. Qed.

Lemma edits_only_add_knot_median ev : edits_only (add_knot_median ev).
Proof. unfold add_knot_median. edits_only_branch. Qed.

Lemma edits_only_delete_knot ev : edits_only (delete_knot ev).
Proof. unfold delete_knot. edits_only_branch. Qed.

Lemma edits_only_move_knot ev : edits_only (move_knot ev).
Proof. unfold move_knot. edits_only_branch. Qed.

Lemma edits_only_move_knot_median ev : edits_only (move_knot_median ev).
Proof. unfold move_knot_median. edits_only_branch. Qed.

(** Past the test for ['q'], the handler writes the knot list and the
    continuum only. *)
Lemma on_keypress_edits_only ev :
  (event.key ev =? "q")%string = false -> edits_only (on_keypress ev).
Proof.
  intros Hq. unfold on_keypress. rewrite Hq.
  repeat first
    [ apply edits_only_seq | apply edits_only_if
    | apply (edits_only_stop Next) | apply (edits_only_stop Return)
    | apply edits_only_double_knots | apply edits_only_halve_knots
    | apply edits_only_add_knot | apply edits_only_add_knot_median
    | apply edits_only_delete_knot | apply edits_only_move_knot
    | apply edits_only_move_knot_median ].
Qed.

(** X8: no sequence of key events changes the spectrum arrays, the
    fitting-window indices, the two outer anchors or the window limits
    [wmin] and [wmax]: they stay as [__init__] set them. *)
Theorem window_fixed_after_init (evs : list event.t) : forall st,
  same_window st (run_events evs st).
Proof.
  induction evs as [|ev evs IH]; intros st; [apply same_window_refl|].
  change (run_events (ev :: evs) st) with (run_events evs (fst (on_keypress ev st))).
  eapply same_window_trans; [|apply IH].
  destruct (event.key ev =? "q")%string eqn:Hq.
  - unfold on_keypress. rewrite Hq. repeat split.
  - apply (on_keypress_edits_only ev Hq st).
Qed.

(** X9: the finished flag is set by key ['q'] and by no other key, and no
    key clears it. *)
Theorem finished_only_by_quit (ev : event.t) (st : InteractiveCoFit) :
  finished (fst (on_keypress ev st))
  = ((event.key ev =? "q")%string || finished st)%bool.
Proof.
  destruct (event.key ev =? "q")%string eqn:Hq.
  - unfold on_keypress. rewrite Hq. reflexivity.
  - apply (on_keypress_edits_only ev Hq st).
Qed.

(** X10: a key that is none of the ten edit keys, the help key ['?'] and
    every navigation and smoothing key among them, leaves the whole object
    as it is and raises nothing: the handler returns, or runs off its
    end. *)
Theorem other_keys_ignored (ev : event.t) (st : InteractiveCoFit) :
  ~ In (event.key ev) edit_keys ->
  on_keypress ev st = (st, if is_main_axes ev then Next else Return).
Proof.
  intros Hk. unfold on_keypress, key_in, existsb.
  repeat match goal with
  | |- context [(event.key ev =? ?s)%string] =>
      let E := fresh "E" in
      destruct (event.key ev =? s)%string eqn:E;
      [apply String.eqb_eq in E; exfalso; apply Hk; rewrite E;
       unfold edit_keys; simpl; tauto|]
  end.
  cbn [orb]. unfold seq, skip, ret.
  destruct (is_main_axes ev); reflexivity.
Qed.

(** ** [update] and the continuum *)

Lemma slice_bound_le (n i : Z) : (0 <= n)%Z -> (Z.of_nat (slice_bound n i) <= n)%Z.
Proof. intros Hn. unfold slice_bound. destruct (i <? 0)%Z; lia. Qed.

(** What [co[i:j] = vals] does to the array when it does not raise. *)
Lemma setslice_spec (co : list Qc) (i j : Z) (vals co' : list Qc) :
  setslice co i j vals = Ok co' ->
  let n := Z.of_nat (length co) in
  let a := slice_bound n i in
  let b := slice_bound n j in
  exists new,
    length new = (b - a)%nat
    /\ co' = firstn a co ++ new ++ skipn (a + (b - a)) co
    /\ (length vals = (b - a)%nat -> new = vals).
Proof.
  intros H n a b. unfold setslice in H. fold n a b in H.
  destruct (length vals =? b - a)%nat eqn:E.
  - apply Nat.eqb_eq in E. injection H as <-. exists vals. auto.
  - apply Nat.eqb_neq in E. destruct vals as [|v [|w r]]; try discriminate H.
    injection H as <-. exists (repeat v (b - a)).
    split; [apply repeat_length|]. split; [reflexivity|]. intros E'. congruence.
Qed.

Lemma spliced_length (co new : list Qc) (a b : nat) :
  (a <= length co)%nat -> (b <= length co)%nat -> length new = (b - a)%nat ->
  length (firstn a co ++ new ++ skipn (a + (b - a)) co) = length co.
Proof.
  intros Ha Hb Hn. rewrite !length_app, length_firstn, length_skipn, Hn. lia.
Qed.

Lemma spliced_outside (co new : list Qc) (a b k : nat) :
  (a <= length co)%nat -> (b <= length co)%nat -> length new = (b - a)%nat ->
  (k < a \/ b <= k)%nat ->
  nth_error (firstn a co ++ new ++ skipn (a + (b - a)) co) k = nth_error co k.
Proof.
  intros Ha Hb Hn Hk.
  assert (Hf : length (firstn a co) = a) by (rewrite length_firstn; lia).
  destruct (Nat.lt_ge_cases k a) as [Hlt | Hge].
  - rewrite nth_error_app1 by lia. rewrite nth_error_firstn.
    apply Nat.ltb_lt in Hlt. rewrite Hlt. reflexivity.
  - assert (Hbk : (b <= k)%nat) by lia.
    rewrite nth_error_app2 by lia. rewrite nth_error_app2 by lia.
    rewrite nth_error_skipn, Hf, Hn. f_equal. lia.
Qed.

Lemma spliced_inside (co new : list Qc) (a b k : nat) :
  (a <= length co)%nat -> length new = (b - a)%nat ->
  (a <= k < b)%nat ->
  nth_error (firstn a co ++ new ++ skipn (a + (b - a)) co) k
  = nth_error new (k - a).
Proof.
  intros Ha Hn Hk.
  assert (Hf : length (firstn a co) = a) by (rewrite length_firstn; lia).
  rewrite nth_error_app2 by lia. rewrite nth_error_app1 by lia.
  rewrite Hf. reflexivity.
Qed.

Lemma slice_bound_nat (l : nat) (i : Z) :
  (slice_bound (Z.of_nat l) i <= l)%nat.
Proof. pose proof (slice_bound_le (Z.of_nat l) i). lia. Qed.

(** X11: [update] keeps the length of the continuum array and leaves every
    pixel outside the slice [i:j] of the fitting window as it was, whether
    it completes or raises. *)
Theorem update_outside_window (st : InteractiveCoFit) (k : nat) :
  let st' := fst (update st) in
  let n := Z.of_nat (length (continuum st)) in
  length (continuum st') = length (continuum st)
  /\ ((k < slice_bound n (fst (indices st)))%nat
      \/ (slice_bound n (snd (indices st)) <= k)%nat ->
      nth_error (continuum st') k = nth_error (continuum st) k).
Proof.
  cbv zeta. unfold update.
  destruct (3 <=? _)%nat; [|auto].
  destruct (AkimaSpline _ _) as [f|e]; [|auto].
  destruct (indices st) as [i j]. cbn [fst snd].
  destruct (setslice _ _ _ _) as [co'|e] eqn:E; [|auto].
  destruct (setslice_spec _ _ _ _ _ E) as [new [Hlen [-> _]]].
  pose proof (slice_bound_nat (length (continuum st)) i) as Ha.
  pose proof (slice_bound_nat (length (continuum st)) j) as Hb.
  assert (Hres : forall f0 : flow,
            continuum (fst (set_continuum st
              (firstn (slice_bound (Z.of_nat (length (continuum st))) i) (continuum st)
               ++ new
               ++ skipn (slice_bound (Z.of_nat (length (continuum st))) i
                         + (slice_bound (Z.of_nat (length (continuum st))) j
                            - slice_bound (Z.of_nat (length (continuum st))) i))
                    (continuum st)), f0))
            = firstn (slice_bound (Z.of_nat (length (continuum st))) i) (continuum st)
               ++ new
               ++ skipn (slice_bound (Z.of_nat (length (continuum st))) i
                         + (slice_bound (Z.of_nat (length (continuum st))) j
                            - slice_bound (Z.of_nat (length (continuum st))) i))
                    (continuum st)) by reflexivity.
  destruct (is_empty _); rewrite Hres; (split;
    [apply spliced_length; assumption | apply spliced_outside; assumption]).
Qed.

(** X12: when there is a knot, the spline accepts the control points and
    the continuum is as long as the spectrum, [update] sets every pixel
    inside the slice [i:j] of the fitting window to the spline evaluated at
    the wavelength of that pixel. *)
Theorem update_inside_window (st : InteractiveCoFit) (f : Qc -> Qc) (k : nat) :
  let cpts := anchor_start st :: contpoints st ++ [anchor_end st] in
  let n := Z.of_nat (length (continuum st)) in
  contpoints st <> [] ->
  AkimaSpline (map fst cpts) (map snd cpts) = Ok f ->
  length (wa st) = length (continuum st) ->
  (slice_bound n (fst (indices st)) <= k < slice_bound n (snd (indices st)))%nat ->
  nth_error (continuum (fst (update st))) k = option_map f (nth_error (wa st) k).
Proof.
  cbv zeta. intros Hne Hf Hlen Hk. unfold update.
  assert (H3 : (3 <=? length (anchor_start st :: contpoints st ++ [anchor_end st]))%nat
               = true).
  { apply Nat.leb_le. simpl. rewrite length_app. simpl.
    destruct (contpoints st); [congruence | simpl; lia]. }
  rewrite H3, Hf. destruct (indices st) as [i j]. cbn [fst snd] in Hk.
  pose proof (slice_bound_nat (length (continuum st)) i) as Ha.
  pose proof (slice_bound_nat (length (continuum st)) j) as Hb.
  set (a := slice_bound (Z.of_nat (length (continuum st))) i) in *.
  set (b := slice_bound (Z.of_nat (length (continuum st))) j) in *.
  assert (Hvals : length (map f (slice (wa st) i j)) = (b - a)%nat).
  { unfold slice. rewrite Hlen. fold a b.
    rewrite length_map, length_firstn, length_skipn. lia. }
  destruct (setslice _ _ _ _) as [co'|e] eqn:E.
  - destruct (setslice_spec _ _ _ _ _ E) as [new [Hn [-> Hnew]]]. fold a b in Hn, Hnew |- *.
    rewrite (Hnew Hvals).
    assert (Hres : forall f0 : flow,
      continuum (fst (set_continuum st
        (firstn a (continuum st) ++ map f (slice (wa st) i j)
         ++ skipn (a + (b - a)) (continuum st)), f0))
      = firstn a (continuum st) ++ map f (slice (wa st) i j)
         ++ skipn (a + (b - a)) (continuum st)) by reflexivity.
    destruct (is_empty _); rewrite Hres;
      rewrite spliced_inside by (assumption || lia);
      unfold slice; rewrite Hlen; fold a b;
      rewrite nth_error_map, nth_error_firstn;
      replace (k - a <? b - a)%nat with true by (symmetry; apply Nat.ltb_lt; lia);
      rewrite nth_error_skipn; do 2 f_equal; lia.
  - exfalso. unfold setslice in E. fold a b in E.
    apply Nat.eqb_eq in Hvals. rewrite Hvals in E. discriminate E.
Qed.

Lemma interior_empty_iff {A : Type} (l : list A) :
  is_empty (interior l) = true <-> (length l <= 2)%nat.
Proof.
  pose proof (interior_length l) as H.
  destruct (interior l) as [|x r]; simpl in *; split; intros; try lia;
    try reflexivity; discriminate.
Qed.

(** With two knots or fewer [update] raises: nothing is left to unpack
    between the first and the last knot. *)
Lemma update_raises_without_interior (st : InteractiveCoFit) :
  (length (contpoints st) <= 2)%nat -> exists e, snd (update st) = Raised e.
Proof.
  intros Hlen. apply interior_empty_iff in Hlen. unfold update.
  destruct (3 <=? _)%nat; [|eexists; reflexivity].
  destruct (AkimaSpline _ _) as [f|e]; [|eexists; reflexivity].
  destruct (indices st) as [i j].
  destruct (setslice _ _ _ _) as [co'|e]; [|eexists; reflexivity].
  rewrite Hlen. eexists. reflexivity.
Qed.

(** X13: with two knots or fewer [update] always raises, so it can complete
    with three knots or more only.  With no knot at all the control points
    are the two outer anchors, the spline is not fitted, and the residuals
    read [i] and [j] unbound: [UnboundLocalError], with the object as it
    was.  With one or two knots nothing lies between the first and the last
    knot for the knot markers to unpack. *)
Theorem update_raises_below_three_knots (st : InteractiveCoFit) :
  (contpoints st = [] -> update st = (st, Raised UnboundLocalError))
  /\ ((length (contpoints st) <= 2)%nat -> exists e, snd (update st) = Raised e)
  /\ (snd (update st) = Next -> (3 <= length (contpoints st))%nat).
Proof.
  split; [|split].
  - intros E. unfold update. rewrite E. reflexivity.
  - apply update_raises_without_interior.
  - intros Hnext.
    destruct (Nat.le_gt_cases 3 (length (contpoints st))) as [H | H]; [exact H|].
    destruct (update_raises_without_interior st) as [e He]; [lia | congruence].
Qed.

(** X14: a delete event that is accepted on a list of three knots removes
    the only knot between the first and the last, and the handler then
    raises inside [update]: two knots are left, the continuum is refitted,
    and nothing is redrawn. *)
Theorem delete_last_interior_knot_raises (ev : event.t) (st : InteractiveCoFit) :
  key_in (event.key ev) ["d"; "4"]%string = true ->
  is_main_axes ev = true ->
  length (contpoints st) = 3%nat ->
  is_edge (nearest ev (contpoints st)) (contpoints st) = false ->
  length (contpoints (fst (on_keypress ev st))) = 2%nat
  /\ exists e, snd (on_keypress ev st) = Raised e.
Proof.
  intros Hk Hax Hlen Hedge.
  rewrite (on_keypress_delete_eq between AkimaSpline transData ev st Hk), Hax.
  unfold delete_knot. rewrite Hlen, Hedge. cbn [Nat.ltb Nat.leb].
  assert (Hne : contpoints st <> []) by (intros E; rewrite E in Hlen; discriminate).
  pose proof (nearest_in_range transData ev _ Hne) as Hr.
  destruct (nth_error (contpoints st) (nearest ev (contpoints st))) as [k|] eqn:Hnth;
    [|apply nth_error_None in Hnth; lia].
  rewrite (remove_nearest transData ev _ k Hnth).
  set (cps' := remove_at (nearest ev (contpoints st)) (contpoints st)).
  assert (Hlen' : length cps' = 2%nat)
    by (unfold cps'; rewrite remove_at_length by exact Hr; lia).
  split.
  - rewrite (assign_update_contpoints AkimaSpline cps' st). exact Hlen'.
  - unfold seq, assign_contpoints.
    destruct (update_raises_without_interior (set_contpoints st cps')) as [e He];
      [cbn [contpoints set_contpoints]; lia|].
    destruct (update (set_contpoints st cps')) as [st' fl'] eqn:Eu.
    cbn [snd] in He. subst fl'. exists e. reflexivity.
Qed.

(** ** [__init__] *)


Lemma getitem_nonempty {A : Type} (l : list A) (i : Z) (v : A) :
  getitem l i = Ok v -> l <> [].
Proof.
  intros H ->. unfold getitem in H. cbv zeta in H.
  destruct (nth_error [] _) eqn:En in H.
  - destruct (Z.to_nat _) in En; discriminate En.
  - destruct (_ || _)%bool in H; discriminate H.
Qed.

(** What a successful [__init__] went through. *)
Lemma init_inv wa0 fl0 er0 (cps : list knot) co st :
  init wa0 fl0 er0 cps co = Ok st ->
  exists c0 t cN' w1 w2 ws cs we ce c,
    co = Some c
    /\ sort knot_ltb cps = c0 :: t
    /\ let cN := last (c0 :: t) c0 in
       let i1 := lower_index wa0 (fst c0) in
       let i2 := upper_index wa0 (fst cN) in
       let cps1 := setitem (c0 :: t) 0 (w1, snd c0) in
       let cps2 := setitem cps1 (length cps1 - 1) (w2, snd cN') in
       let st0 := mkCoFit wa0 fl0 er0 c cps2 (i1, i2) (ws, cs) (we, ce)
                          (fst c0) (fst cN) false in
       getitem wa0 i1 = Ok w1
       /\ cN' = last cps1 c0
       /\ getitem wa0 i2 = Ok w2
       /\ getitem wa0 (i1 - 1) = Ok ws
       /\ getitem c (i1 - 1) = Ok cs
       /\ getitem wa0 (i2 + 1) = Ok we
       /\ getitem c (i2 + 1) = Ok ce
       /\ st = fst (update st0)
       /\ forall e, snd (update st0) <> Raised e.
Proof.
  intros H. unfold init, bind in H.
  destruct (sort knot_ltb cps) as [|c0 t] eqn:Es; [discriminate H|].
  rewrite getitem_first, (getitem_last c0) in H by discriminate.
  cbv zeta in H. fold (lower_index wa0 (fst c0)) in H.
  fold (upper_index wa0 (fst (last (c0 :: t) c0))) in H.
  destruct (getitem wa0 (lower_index wa0 (fst c0))) as [w1|] eqn:E1; [|discriminate H].
  rewrite (getitem_last c0) in H by (simpl; discriminate).
  destruct (getitem wa0 (upper_index _ _)) as [w2|] eqn:E2; [|discriminate H].
  destruct (getitem wa0 (lower_index _ _ - 1)) as [ws|] eqn:E3; [|discriminate H].
  destruct co as [c|]; [|discriminate H]. cbn [getitem_co] in H.
  destruct (getitem c (lower_index _ _ - 1)) as [cs|] eqn:E4; [|discriminate H].
  destruct (getitem wa0 (upper_index _ _ + 1)) as [we|] eqn:E5; [|discriminate H].
  destruct (getitem c (upper_index _ _ + 1)) as [ce|] eqn:E6; [|discriminate H].
  exists c0, t, (last (setitem (c0 :: t) 0 (w1, snd c0)) c0), w1, w2, ws, cs, we, ce, c.
  split; [reflexivity|]. split; [reflexivity|]. cbv zeta.
  repeat (split; [first [assumption | reflexivity]|]).
  destruct (update _) as [st' [| |e]] eqn:Eu; try discriminate H;
    injection H as <-; (split; [reflexivity | intros e; discriminate]).
Qed.




(** X15: without a continuum, [co=None], the constructor never completes:
    it raises at the latest where the outer anchors read [co[i1 - 1]]. *)
Theorem init_requires_continuum wa0 fl0 er0 (cps : list knot) :
  exists e, init wa0 fl0 er0 cps None = Raise e.
Proof.
  destruct (init wa0 fl0 er0 cps None) as [st|e] eqn:E; [|exists e; reflexivity].
  apply init_inv in E.
  destruct E as (c0 & t & cN' & w1 & w2 & ws & cs & we & ce & c & Hco & _).
  discriminate Hco.
Qed.






(** ** Distinct wavelengths *)

Lemma increasing_distinct (l : list knot) :
  wavelengths_increasing l -> NoDup (map fst l).
Proof.
  intros H. apply Sorted_StronglySorted in H; [|exact lt_x_trans].
  induction H as [|a l Hs IH Hall]; simpl; constructor; [|exact IH].
  intros Hin. apply in_map_iff in Hin. destruct Hin as [b [Hb Hin]].
  rewrite Forall_forall in Hall. specialize (Hall b Hin). unfold lt_x in Hall.
  rewrite Hb in Hall. exact (Qclt_not_eq _ _ Hall eq_refl).
Qed.

Lemma sorted_distinct_increasing (l : list knot) :
  knots_sorted l -> NoDup (map fst l) -> wavelengths_increasing l.
Proof.
  intros Hs Hnd. apply StronglySorted_Sorted.
  induction Hs as [|a l Hs IH Hall]; [constructor|].
  simpl in Hnd. inversion Hnd as [|? ? Hnotin Hnd']; subst.
  constructor; [exact (IH Hnd')|].
  rewrite Forall_forall in *. intros b Hb.
  destruct (proj1 (knot_le_spec a b) (Hall b Hb)) as [Hlt | [Heq _]]; [exact Hlt|].
  exfalso. apply Hnotin. rewrite Heq. apply in_map, Hb.
Qed.

Lemma x_in_knots_false (x : Qc) (cps : list knot) :
  x_in_knots x cps = false -> ~ In x (map fst cps).
Proof.
  unfold x_in_knots. intros H Hin.
  assert (E : existsb (Qc_eqb x) (map fst cps) = true).
  { apply existsb_exists. exists x. split; [exact Hin | apply Qc_eqb_refl]. }
  congruence.
Qed.

Lemma setitem_distinct (l : list knot) (k : knot) :
  forall i, NoDup (map fst l) -> ~ In (fst k) (map fst l) ->
            NoDup (map fst (setitem l i k)).
Proof.
  induction l as [|h t IH]; intros i Hnd Hk; [destruct i; constructor|].
  simpl in Hnd, Hk. inversion Hnd as [|? ? Hh Ht]; subst.
  destruct i as [|i']; simpl; constructor.
  - intros Hin. apply Hk. right. exact Hin.
  - exact Ht.
  - intros Hin. apply in_map_iff in Hin. destruct Hin as [b [Hb Hin]].
    destruct (in_setitem k b t i' Hin) as [-> | Hbt].
    + apply Hk. left. symmetry. exact Hb.
    + apply Hh. rewrite <- Hb. apply in_map, Hbt.
  - apply IH; [exact Ht | intros Hin; apply Hk; right; exact Hin].
Qed.

Lemma sorted_of_distinct (l : list knot) :
  NoDup (map fst l) -> wavelengths_increasing (sort knot_ltb l).
Proof.
  intros Hnd. apply sorted_distinct_increasing; [apply ksort_sorted|].
  apply (Permutation_NoDup (l := map fst l)); [|exact Hnd].
  apply Permutation_map, Permutation_sym, ksort_perm.
Qed.

Lemma removelast_below_last {A : Type} (R : A -> A -> Prop) (l : list A) (d e : A) :
  StronglySorted R l -> In e (removelast l) -> R e (last l d).
Proof.
  induction 1 as [|a t Hs IH Hall]; [intros []|].
  destruct t as [|b t']; [intros []|].
  change (removelast (a :: b :: t')) with (a :: removelast (b :: t')).
  change (last (a :: b :: t') d) with (last (b :: t') d).
  intros [<- | Hin]; [|exact (IH Hin)].
  rewrite Forall_forall in Hall. apply Hall.
  apply (nth_error_In _ (length (b :: t') - 1)), nth_error_last. discriminate.
Qed.

Lemma keeps_distinct_seq (s1 s2 : stmt) :
  keeps_distinct s1 -> keeps_distinct s2 -> keeps_distinct (s1 ;; s2).
Proof.
  intros H1 H2 st H. unfold seq.
  specialize (H1 st H). destruct (s1 st) as [st' [| |e]]; simpl in *; auto.
Qed.

Lemma keeps_distinct_if (b : bool) (s1 s2 : stmt) :
  keeps_distinct s1 -> keeps_distinct s2 -> keeps_distinct (if b then s1 else s2).
Proof. destruct b; auto. Qed.

Lemma keeps_distinct_stop (f : flow) : keeps_distinct (fun st => (st, f)).
Proof. intros st H. exact H. Qed.

Lemma keeps_distinct_double_knots : keeps_distinct double_knots.
Proof.
  intros st [Hs Hlen]. unfold knots_distinct.
  assert (Hne : contpoints st <> [])
    by (intros E; rewrite E in Hlen; simpl in Hlen; lia).
  rewrite (double_knots_contpoints AkimaSpline st Hne). cbv zeta.
  set (xnew := midpoints (map fst (contpoints st))).
  set (new := combine xnew _).
  assert (Hnew : map fst new = xnew) by apply new_knots_wavelengths.
  split.
  - rewrite (sort_with_midpoints _ new Hs Hnew).
    apply interleave_increasing; assumption.
  - rewrite sort_length, length_app. lia.
Qed.

Lemma keeps_distinct_halve_knots : keeps_distinct halve_knots.
Proof.
  intros st [Hs Hlen]. unfold knots_distinct.
  destruct (contpoints st) as [|c0 r] eqn:E; [simpl in Hlen; lia|].
  rewrite (halve_knots_contpoints AkimaSpline st c0 r E).
  split; [|rewrite !length_app; simpl; lia].
  destruct r as [|c1 r']; [simpl in Hlen; lia|].
  apply Sorted_StronglySorted in Hs; [|exact lt_x_trans].
  apply StronglySorted_Sorted.
  inversion Hs as [|? ? Hr Hall]; subst.
  unfold interior. cbn [tl app].
  change (last (c0 :: c1 :: r') c0) with (last (c1 :: r') c0).
  assert (Hin : forall e, In e (every_second (removelast (c1 :: r')))
                          -> In e (removelast (c1 :: r'))).
  { intros e He. exact (proj1 (in_every_second e _) He). }
  assert (Hlast : In (last (c1 :: r') c0) (c1 :: r')).
  { apply (nth_error_In _ (length (c1 :: r') - 1)), nth_error_last. discriminate. }
  constructor.
  - apply sorted_snoc.
    + apply every_second_sorted, removelast_sorted, Hr.
    + rewrite Forall_forall. intros e He.
      apply removelast_below_last; [exact Hr | apply Hin, He].
  - apply Forall_app. split.
    + rewrite Forall_forall in *. intros e He.
      apply Hall, in_removelast, Hin, He.
    + repeat constructor. rewrite Forall_forall in Hall. apply Hall, Hlast.
Qed.

Lemma added_distinct (cps : list knot) (x y : Qc) :
  wavelengths_increasing cps ->
  is_empty cps || negb (x_in_knots x cps) = true ->
  wavelengths_increasing (sort knot_ltb (cps ++ [(x, y)])).
Proof.
  intros Hs Hx. apply sorted_of_distinct.
  rewrite map_app. simpl.
  apply (Permutation_NoDup (l := x :: map fst cps));
    [apply Permutation_cons_append|].
  constructor; [|apply increasing_distinct, Hs].
  destruct cps as [|c r]; [intros []|]. simpl in Hx.
  apply x_in_knots_false. destruct (x_in_knots x (c :: r)); [discriminate|reflexivity].
Qed.

Lemma keeps_distinct_add_knot ev : keeps_distinct (add_knot ev).
Proof.
  intros st [Hs Hlen]. unfold knots_distinct, add_knot.
  destruct (outside_region between ev st); [auto|].
  destruct (_ || _) eqn:Hx; [|auto].
  rewrite assign_then_update.
  split; [apply added_distinct; assumption|].
  rewrite sort_length, length_app. lia.
Qed.

Lemma keeps_distinct_add_knot_median ev : keeps_distinct (add_knot_median ev).
Proof.
  intros st [Hs Hlen]. unfold knots_distinct, add_knot_median.
  destruct (outside_region between ev st); [auto|].
  destruct (_ || _) eqn:Hx; [|auto].
  rewrite assign_then_update.
  split; [apply added_distinct; assumption|].
  rewrite sort_length, length_app. lia.
Qed.

Lemma keeps_distinct_delete_knot ev : keeps_distinct (delete_knot ev).
Proof.
  intros st [Hs Hlen]. unfold knots_distinct.
  rewrite delete_knot_contpoints.
  destruct (length (contpoints st) <? 3)%nat eqn:E3; [auto|].
  destruct (is_edge _ _); [auto|]. simpl.
  apply Nat.ltb_ge in E3. split.
  - apply StronglySorted_Sorted, remove_at_sorted.
    apply Sorted_StronglySorted; [exact lt_x_trans | exact Hs].
  - rewrite remove_at_length; [lia|].
    apply nearest_in_range. intros E. rewrite E in Hlen. simpl in Hlen. lia.
Qed.

Lemma keeps_distinct_move_knot_median ev : keeps_distinct (move_knot_median ev).
Proof.
  intros st [Hs Hlen]. unfold knots_distinct, move_knot_median.
  destruct (outside_region between ev st); [auto|].
  destruct (is_empty (contpoints st)) eqn:Hemp; [auto|].
  destruct (is_edge _ _); [auto|].
  cbn [orb].
  destruct (x_in_knots (event.xdata ev) (contpoints st)) eqn:Hx; [auto|].
  cbn [negb]. rewrite assign_then_update. split.
  - apply sorted_of_distinct, setitem_distinct;
      [apply increasing_distinct, Hs | apply x_in_knots_false, Hx].
  - rewrite sort_length, setitem_length. exact Hlen.
Qed.

Lemma on_keypress_keeps_distinct ev :
  event.key ev <> "m"%string -> keeps_distinct (on_keypress ev).
Proof.
  intros Hm. unfold on_keypress.
  destruct (event.key ev =? "q")%string; [intros st H; exact H|].
  destruct (event.key ev =? "m")%string eqn:Em;
    [apply String.eqb_eq in Em; congruence|].
  repeat first
    [ apply keeps_distinct_seq | apply keeps_distinct_if
    | apply (keeps_distinct_stop Next) | apply (keeps_distinct_stop Return)
    | apply keeps_distinct_double_knots | apply keeps_distinct_halve_knots
    | apply keeps_distinct_add_knot | apply keeps_distinct_add_knot_median
    | apply keeps_distinct_delete_knot | apply keeps_distinct_move_knot_median ].
Qed.

(** X20: through a session of key events the knot list stays sorted, in
    Python's tuple order, and never drops below two knots, whichever
    handlers raise on the way. *)
Theorem session_keeps_knots_sorted (evs : list event.t) : forall st,
  knots_sorted (contpoints st) -> (2 <= length (contpoints st))%nat ->
  knots_sorted (contpoints (run_events evs st))
  /\ (2 <= length (contpoints (run_events evs st)))%nat.
Proof.
  induction evs as [|ev evs IH]; intros st Hs Hlen; [split; assumption|].
  destruct (on_keypress_keeps_invariant between AkimaSpline transData ev st
              (conj Hs Hlen)) as [Hs' Hlen'].
  exact (IH _ Hs' Hlen').
Qed.

(** X21: through a session of key events none of which is ['m'], knot
    wavelengths that increase strictly keep doing so: no two knots ever
    share a wavelength, and two knots or more remain.  ['M'] refuses a
    wavelength that is taken, as the add keys do; only ['m'] does not
    look. *)
Theorem session_keeps_wavelengths_distinct (evs : list event.t) : forall st,
  Forall (fun ev => event.key ev <> "m"%string) evs ->
  wavelengths_increasing (contpoints st) -> (2 <= length (contpoints st))%nat ->
  wavelengths_increasing (contpoints (run_events evs st))
  /\ (2 <= length (contpoints (run_events evs st)))%nat.
Proof.
  induction evs as [|ev evs IH]; intros st Hk Hs Hlen; [split; assumption|].
  inversion Hk as [|? ? Hm Hk']; subst.
  destruct (on_keypress_keeps_distinct ev Hm st (conj Hs Hlen)) as [Hs' Hlen'].
  exact (IH _ Hk' Hs' Hlen').
Qed.

(** ** Doubling and halving *)

(** X22: ['+'] on a knot list that is not empty keeps every knot and adds
    one knot at the midpoint of each pair of neighbours in the list, which
    leaves [2n - 1] knots. *)
Theorem double_adds_midpoints (ev : event.t) (st : InteractiveCoFit) :
  event.key ev = "+"%string ->
  contpoints st <> [] ->
  exists new : list knot,
    map fst new = midpoints (map fst (contpoints st))
    /\ Permutation (contpoints (fst (on_keypress ev st))) (contpoints st ++ new)
    /\ length (contpoints (fst (on_keypress ev st)))
       = (2 * length (contpoints st) - 1)%nat.
Proof.
  intros Hk Hne.
  rewrite (on_keypress_plus_contpoints between AkimaSpline transData ev st Hk).
  rewrite (double_knots_contpoints AkimaSpline st Hne). cbv zeta.
  set (xnew := midpoints (map fst (contpoints st))).
  set (new := combine xnew _).
  assert (Hnew : map fst new = xnew) by apply new_knots_wavelengths.
  exists new. split; [exact Hnew|]. split; [apply ksort_perm|].
  rewrite sort_length, length_app.
  assert (Hl : length new = (length (contpoints st) - 1)%nat).
  { transitivity (length (map fst new)); [symmetry; apply length_map|].
    rewrite Hnew. unfold xnew. rewrite midpoints_length, length_map. reflexivity. }
  assert (Hpos : (1 <= length (contpoints st))%nat)
    by (destruct (contpoints st); [congruence | simpl; lia]).
  unfold knot in *. rewrite Hl. lia.
Qed.

Lemma every_second_removelast_nth {A : Type} (l : list A) (k : nat) :
  nth_error (every_second (removelast l)) k
  = if (2 * k + 2 <? length l)%nat then nth_error l (2 * k + 1) else None.
Proof.
  assert (H : forall n (l : list A), (length l <= n)%nat -> forall k,
             nth_error (every_second (removelast l)) k
             = if (2 * k + 2 <? length l)%nat then nth_error l (2 * k + 1)
               else None).
  { clear l k. induction n as [|n IH]; intros l Hl k.
    - destruct l; [|simpl in Hl; lia].
      destruct (_ <? _)%nat eqn:E; [apply Nat.ltb_lt in E; simpl in E; lia|].
      destruct k; reflexivity.
    - destruct l as [|a [|b [|c t]]].
      + destruct (_ <? _)%nat eqn:E; [apply Nat.ltb_lt in E; simpl in E; lia|].
        destruct k; reflexivity.
      + destruct (_ <? _)%nat eqn:E; [apply Nat.ltb_lt in E; simpl in E; lia|].
        destruct k; reflexivity.
      + destruct (_ <? _)%nat eqn:E; [apply Nat.ltb_lt in E; simpl in E; lia|].
        destruct k; reflexivity.
      + change (removelast (a :: b :: c :: t)) with (a :: b :: removelast (c :: t)).
        change (every_second (a :: b :: removelast (c :: t)))
          with (b :: every_second (removelast (c :: t))).
        destruct k as [|k']; [reflexivity|].
        cbn [nth_error]. rewrite IH by (simpl in *; lia).
        replace (2 * S k' + 1)%nat with (S (S (2 * k' + 1))) by lia.
        cbn [nth_error].
        replace (2 * S k' + 2 <? length (a :: b :: c :: t))%nat
          with (2 * k' + 2 <? length (c :: t))%nat; [reflexivity|].
        simpl length. destruct (2 * k' + 2 <? S (length t))%nat eqn:E1;
          symmetry; [apply Nat.ltb_lt; apply Nat.ltb_lt in E1
                    | apply Nat.ltb_ge; apply Nat.ltb_ge in E1]; lia. }
  apply (H (length l)). lia.
Qed.

(** X23: ['_'] on two knots or more keeps the first knot, the last knot and
    every second knot in between, starting with the third of the list: the
    knot at index [k + 1] afterwards is the one that was at index [2k + 2].
    That leaves [2 + (n - 2) / 2] knots, each of them a knot from before. *)
Theorem halve_keeps_every_second (ev : event.t) (st : InteractiveCoFit) (d : knot) :
  event.key ev = "_"%string ->
  (2 <= length (contpoints st))%nat ->
  length (contpoints (fst (on_keypress ev st)))
  = (2 + Nat.div2 (length (contpoints st) - 2))%nat
  /\ incl (contpoints (fst (on_keypress ev st))) (contpoints st)
  /\ hd d (contpoints (fst (on_keypress ev st))) = hd d (contpoints st)
  /\ last (contpoints (fst (on_keypress ev st))) d = last (contpoints st) d
  /\ forall k, (2 * k + 3 < length (contpoints st))%nat ->
               nth_error (contpoints (fst (on_keypress ev st))) (S k)
               = nth_error (contpoints st) (2 * k + 2).
Proof.
  intros Hk Hlen.
  rewrite (on_keypress_minus_contpoints between AkimaSpline transData ev st Hk).
  destruct (contpoints st) as [|c0 r] eqn:E; [simpl in Hlen; lia|].
  rewrite (halve_knots_contpoints AkimaSpline st c0 r E).
  destruct r as [|c1 r']; [simpl in Hlen; lia|].
  assert (Hlast : In (last (c0 :: c1 :: r') c0) (c0 :: c1 :: r')).
  { apply (nth_error_In _ (length (c0 :: c1 :: r') - 1)), nth_error_last.
    discriminate. }
  split; [|split; [|split; [|split]]].
  - rewrite !length_app.
    rewrite (proj1 (every_second_length _)), interior_length. simpl. lia.
  - intros e He. apply in_app_or in He.
    destruct He as [[<- | []] | He]; [left; reflexivity|].
    apply in_app_or in He. destruct He as [He | [<- | []]]; [|exact Hlast].
    right. unfold interior in He. cbn [tl] in He.
    apply in_removelast. exact (proj1 (in_every_second e _) He).
  - reflexivity.
  - rewrite app_assoc, last_last. apply last_default. discriminate.
  - unfold interior. cbn [tl].
    pose proof (@every_second_removelast_nth knot) as H.
    intros k Hk2. cbn [app nth_error].
    assert (E1 : (2 * k + 2 <? length (c1 :: r'))%nat = true)
      by (apply Nat.ltb_lt; simpl in *; lia).
    rewrite nth_error_app1.
    + rewrite H, E1.
      replace (2 * k + 2)%nat with (S (2 * k + 1)) by lia. reflexivity.
    + apply nth_error_Some. rewrite H, E1. apply nth_error_Some.
      simpl in *. lia.
Qed.

(** ** The knots that ['+'] adds *)






End CoFitMore.

(** ** [local_median] *)

Lemma in_slice {A : Type} (x : A) (l : list A) (i j : Z) :
  In x (slice l i j) -> In x l.
Proof.
  unfold slice. cbv zeta. intros H.
  set (a := slice_bound (Z.of_nat (length l)) i) in *.
  set (b := slice_bound (Z.of_nat (length l)) j) in *.
  rewrite <- (firstn_skipn a l). apply in_or_app. right.
  rewrite <- (firstn_skipn (b - a) (skipn a l)). apply in_or_app. left. exact H.
Qed.

Lemma good_flux_without_errors (er0 : list Qc) :
  forall fl0, Forall (fun e => e <= 0) er0 -> good_flux er0 fl0 = [].
Proof.
  induction er0 as [|e r IH]; intros fl0 H; [reflexivity|].
  inversion H as [|? ? He Hr]; subst.
  destruct fl0 as [|[v|] fl']; simpl; [reflexivity | | apply IH, Hr].
  assert (E : Qc_ltb 0 e = false) by (apply Qc_ltb_ge, He).
  rewrite E. apply IH, Hr.
Qed.

Lemma in_good_flux (v : Qc) (er0 : list Qc) :
  forall fl0, In v (good_flux er0 fl0) -> In (Some v) fl0.
Proof.
  induction er0 as [|e r IH]; intros fl0 H; [destruct H|].
  destruct fl0 as [|[w|] fl']; simpl in H; [destruct H| |right; apply IH, H].
  destruct (Qc_ltb 0 e).
  - destruct H as [<- | H]; [left; reflexivity | right; apply IH, H].
  - right. apply IH, H.
Qed.

Lemma halved_sum_between (u v : Qc) :
  u <= v -> u <= (u + v) / dec 2 1 /\ (u + v) / dec 2 1 <= v.
Proof.
  intros H.
  assert (E : (u + v) / dec 2 1 = dec 1 2 * (u + v)).
  { unfold Qcdiv. rewrite Qcmult_comm.
    replace (/ dec 2 1) with (dec 1 2); [reflexivity|].
    apply Qc_eqb_eq. vm_compute. reflexivity. }
  rewrite E. split; qc_lra.
Qed.

(** The median of a sample lies between two of its values. *)
Lemma median_between (l : list Qc) :
  l <> [] ->
  exists a b, In a l /\ In b l /\ a <= median l /\ median l <= b.
Proof.
  intros Hne. unfold median. cbv zeta.
  pose proof (sort_perm Qc_ltb l) as Hp.
  set (s := sort Qc_ltb l) in *.
  assert (Hn : (1 <= length s)%nat).
  { rewrite (Permutation_length Hp). destruct l; [congruence | simpl; lia]. }
  assert (Hin : forall i, (i < length s)%nat -> In (nth i s 0) l).
  { intros i Hi. apply (Permutation_in _ Hp), nth_In, Hi. }
  assert (Hhalf : (length s / 2 < length s)%nat)
    by (apply Nat.div_lt; lia).
  destruct (Nat.even (length s)) eqn:Ev.
  - set (u := nth (length s / 2 - 1) s 0).
    set (v := nth (length s / 2) s 0).
    assert (Hu : In u l) by (apply Hin; lia).
    assert (Hv : In v l) by (apply Hin; lia).
    destruct (Qclt_le_dec v u) as [Hvu | Huv].
    + exists v, u. split; [exact Hv|]. split; [exact Hu|].
      rewrite (Qcplus_comm u v).
      apply halved_sum_between, Qclt_le_weak, Hvu.
    + exists u, v. split; [exact Hu|]. split; [exact Hv|].
      apply halved_sum_between, Huv.
  - exists (nth (length s / 2) s 0), (nth (length s / 2) s 0).
    split; [apply Hin, Hhalf|]. split; [apply Hin, Hhalf|].
    split; apply Qcle_refl.
Qed.

(** X25: where no pixel has a positive error, [local_median] finds no
    usable flux and returns the default. *)
Theorem local_median_without_errors (wa0 : list Qc) (fl0 : list (option Qc))
    (er0 : list Qc) (x default : Qc) :
  Forall (fun e => e <= 0) er0 ->
  local_median wa0 fl0 er0 x default = default.
Proof.
  intros H. unfold local_median, good_window. cbv zeta.
  rewrite good_flux_without_errors; [reflexivity|].
  rewrite Forall_forall in *. intros e He. apply H. exact (in_slice _ _ _ _ He).
Qed.

(** X26: on a spectrum of 20 pixels or more, for an [x] with fewer than 10
    wavelengths below it, [local_median] returns the default whatever the
    flux: the start [i - 10] of the slice is negative, so it counts from
    the end of the array, and the slice is empty. *)
Theorem local_median_near_start (wa0 : list Qc) (fl0 : list (option Qc))
    (er0 : list Qc) (x default : Qc) :
  (searchsorted wa0 x < 10)%nat ->
  (20 <= length er0)%nat ->
  length fl0 = length er0 ->
  local_median wa0 fl0 er0 x default = default.
Proof.
  intros Hi Hn Hfl. unfold local_median, good_window. cbv zeta.
  assert (E : slice er0 (Z.of_nat (searchsorted wa0 x) - npix)
                        (Z.of_nat (searchsorted wa0 x) + npix) = []).
  { unfold slice. cbv zeta.
    replace (slice_bound (Z.of_nat (length er0)) (Z.of_nat (searchsorted wa0 x) + npix)
             - slice_bound (Z.of_nat (length er0)) (Z.of_nat (searchsorted wa0 x) - npix))%nat
      with O; [reflexivity|].
    unfold slice_bound, npix. cbv zeta.
    destruct (Z.of_nat (searchsorted wa0 x) + 10 <? 0)%Z eqn:E1;
      [apply Z.ltb_lt in E1; lia|].
    destruct (Z.of_nat (searchsorted wa0 x) - 10 <? 0)%Z eqn:E2;
      [|apply Z.ltb_ge in E2; lia].
    lia. }
  rewrite E. reflexivity.
Qed.

(** X27: what [local_median] returns is the default, or lies between two
    fluxes of the spectrum that are not NaN. *)
Theorem local_median_between_fluxes (wa0 : list Qc) (fl0 : list (option Qc))
    (er0 : list Qc) (x default : Qc) :
  local_median wa0 fl0 er0 x default = default
  \/ exists a b, In (Some a) fl0 /\ In (Some b) fl0
                 /\ a <= local_median wa0 fl0 er0 x default
                 /\ local_median wa0 fl0 er0 x default <= b.
Proof.
  unfold local_median.
  destruct (good_window wa0 fl0 er0 x) as [|g r] eqn:E; [left; reflexivity|].
  right. destruct (median_between (g :: r)) as (a & b & Ha & Hb & H1 & H2);
    [discriminate|].
  assert (Hfl : forall v, In v (g :: r) -> In (Some v) fl0).
  { intros v Hv. rewrite <- E in Hv. unfold good_window in Hv. cbv zeta in Hv.
    apply in_good_flux in Hv. exact (in_slice _ _ _ _ Hv). }
  exists a, b. auto.
Qed.

(** ** Saving and loading the knots *)

Section JsonFacts.

Variable json_dump : list knot -> string.

Local Abbreviation savejson := (savejson json_dump).

(** X28: without [overwrite], [savejson] leaves every file that exists with
    the content it had, whether it raises or writes. *)
Theorem savejson_keeps_existing_files (fs : files) (filename : string)
    (obj : list knot) (f content : string) :
  fs f = Some content ->
  fst (savejson fs filename obj false) f = Some content.
Proof.
  intros H. unfold savejson.
  destruct (fs filename) as [c|] eqn:E; [exact H|]. cbn [truthy andb].
  destruct (endswith filename ".gz"); [exact H|].
  cbn [fst]. unfold write_file.
  destruct (f =? filename)%string eqn:Ef; [|exact H].
  apply String.eqb_eq in Ef. congruence.
Qed.

(** X29: a file name that ends in [.gz] is never written: [savejson] raises,
    [IOError] when the file exists and [overwrite] is off, [NameError]
    otherwise, as the module does not import [gzip]; the files stay as they
    were. *)
Theorem savejson_gz_raises (fs : files) (filename : string) (obj : list knot)
    (overwrite : bool) :
  endswith filename ".gz" = true ->
  savejson fs filename obj overwrite
  = (fs, Fails (if truthy (fs filename) && negb overwrite
                then File_IOError else File_NameError)).
Proof.
  intros H. unfold savejson. rewrite H.
  destruct (truthy (fs filename) && negb overwrite); reflexivity.
Qed.

End JsonFacts.

(** * Instances *)

Ltac qc_lt := apply Qc_ltb_lt; vm_compute; reflexivity.

Lemma zoom_in_4000_5000_at_4500_witness :
  on_keypress_navigate between_closed_open unit_plotrange [] []
    (key_event "i" 4500 0) zoom_axes
  = Ok (set_xlim zoom_axes (dec 4225 1) (dec 4775 1)).
Proof.
  apply zoom_in_4000_5000_at_4500; reflexivity.
Defined.

(** C1 (as stated) fails: the new limits are not (4275, 4725). *)
Lemma zoom_in_not_4275_4725 :
  on_keypress_navigate between_closed_open unit_plotrange [] []
    (key_event "i" 4500 0) zoom_axes
  <> Ok (set_xlim zoom_axes (dec 4275 1) (dec 4725 1)).
Proof.
  rewrite (navigate_zoom_in between_closed_open unit_plotrange [] []
             (key_event "i" 4500 0) zoom_axes) by reflexivity.
  intros H. injection H as H1 H2. vm_compute in H1. discriminate H1.
Qed.

Lemma sample_state_sorted : knots_sorted (contpoints sample_state).
Proof.
  repeat (constructor; try (vm_compute; reflexivity)).
Qed.

(** The sample object is what [__init__] builds. *)
Lemma init_sample_state :
  init flat_spline (grid [0; 10; 20; 30; 40; 50]%Z) (flat_flux (dec 1 1) 6) (ones 6)
       [(dec 12 1, dec 1 1); (dec 25 1, dec 11 1); (dec 35 1, dec 1 1)]
       (Some (ones 6))
  = Ok sample_state.
Proof. vm_compute. reflexivity. Qed.

Lemma delete_removes_nearest_witness :
  contpoints (fst (on_keypress between_closed_open flat_spline screen_identity
                     (key_event "d" 25 11) sample_state))
  = [(dec 20 1, dec 1 1); (dec 40 1, dec 1 1)].
Proof.
  exact (proj1 (delete_removes_nearest between_closed_open flat_spline
                  screen_identity (key_event "d" 25 11) sample_state
                  eq_refl eq_refl)).
Defined.

Lemma double_two_anchors_witness :
  contpoints (fst (on_keypress between_closed_open flat_spline screen_identity
                     (key_event "+" 0 0) two_anchor_state))
  = [(dec 4000 1, dec 1 1); (dec 4500 1, dec 95 100); (dec 5000 1, dec 9 10)].
Proof.
  apply double_two_anchors; reflexivity.
Defined.

Lemma double_then_halve_bounded_witness :
  let cps := contpoints sample_state in
  let cps' :=
    contpoints
      (fst (on_keypress between_closed_open flat_spline screen_identity
              (key_event "_" 0 0)
              (fst (on_keypress between_closed_open flat_spline screen_identity
                      (key_event "+" 0 0) sample_state)))) in
  hd_error cps' = hd_error cps
  /\ last cps' (0, 0) = last cps (0, 0)
  /\ (length (interior cps') <= length (interior cps))%nat.
Proof.
  apply double_then_halve_bounded.
  - reflexivity.
  - reflexivity.
  - exact sample_state_sorted.
  - split; repeat (constructor; try qc_lt).
Defined.

Lemma add_then_delete_roundtrip_witness :
  contpoints
    (fst (on_keypress between_closed_open flat_spline screen_identity
            (key_event "d" 30 5)
            (fst (on_keypress between_closed_open flat_spline screen_identity
                    (key_event "a" 30 5) sample_state))))
  = contpoints sample_state.
Proof.
  apply add_then_delete_roundtrip.
  - exact sample_state_sorted.
  - reflexivity.
  - reflexivity.
  - vm_compute. reflexivity.
  - vm_compute. reflexivity.
  - reflexivity.
  - reflexivity.
  - vm_compute. lia.
  - vm_compute. reflexivity.
  - vm_compute. reflexivity.
Defined.

Lemma init_leaves_knots_unsorted_witness :
  exists st,
    init flat_spline (grid [0; 10; 20; 30; 40; 50]%Z) (flat_flux (dec 1 1) 6) (ones 6)
         [(dec 12 1, dec 1 1); (dec 15 1, dec 1 1); (dec 35 1, dec 1 1)]
         (Some (ones 6))
    = Ok st
    /\ contpoints st = [(dec 20 1, dec 1 1); (dec 15 1, dec 1 1); (dec 40 1, dec 1 1)]
    /\ ~ sorted_by_wavelength (contpoints st).
Proof.
  exact (init_leaves_knots_unsorted flat_spline (fun _ => dec 1 1) eq_refl).
Defined.

Lemma edge_anchors_kept_witness :
  hd_error (contpoints
              (run_events between_closed_open flat_spline screen_identity
                 [key_event "m" 30 12; key_event "d" 30 12] sample_state))
  = Some (dec 20 1, dec 1 1)
  /\ last (contpoints
             (run_events between_closed_open flat_spline screen_identity
                [key_event "m" 30 12; key_event "d" 30 12] sample_state))
          (dec 20 1, dec 1 1)
     = (dec 40 1, dec 1 1).
Proof.
  apply edge_anchors_kept.
  - exact sample_state_sorted.
  - reflexivity.
  - reflexivity.
  - split; [|split; [|exact I]].
    + split; [simpl; auto | intros _; right; right; split; qc_lt].
    + split; [simpl; auto | intros [H | [H | []]]; discriminate H].
Defined.

Lemma rejected_edit_no_mutation_witness :
  let st' := fst (on_keypress between_closed_open flat_spline screen_identity
                    (key_event "a" 5 1) sample_state) in
  contpoints st' = contpoints sample_state
  /\ continuum st' = continuum sample_state
  /\ indices st' = indices sample_state.
Proof.
  apply rejected_edit_no_mutation.
  apply outside_fitting_window.
  - simpl. auto.
  - vm_compute. reflexivity.
Defined.

Lemma move_median_duplicate_x_raises_witness :
  on_keypress between_closed_open flat_spline screen_identity
    (key_event "M" 25 10) sample_state
  = (sample_state, Raised UnboundLocalError)
  /\ isinstance_NameError UnboundLocalError = true.
Proof.
  apply move_median_duplicate_x_raises.
  - reflexivity.
  - reflexivity.
  - vm_compute. reflexivity.
  - vm_compute. reflexivity.
  - vm_compute. reflexivity.
Defined.

(** C5 (as stated) fails: the knot list of [tied_state] is sorted and has
    one knot between its first and last entry.  ['+'] adds the knot (12, 0)
    at the wavelength the first two knots share, with the local flux median
    0 for y; it sorts in front, and after ['_'] it is the first entry where
    (12, 5) was. *)
Lemma double_then_halve_replaces_first :
  let st' :=
    fst (on_keypress between_closed_open flat_spline screen_identity
           (key_event "_" 0 0)
           (fst (on_keypress between_closed_open flat_spline screen_identity
                   (key_event "+" 0 0) tied_state))) in
  knots_sorted (contpoints tied_state)
  /\ contpoints tied_state
     = [(dec 12 1, dec 5 1); (dec 12 1, dec 7 1); (dec 15 1, dec 2 1)]
  /\ contpoints st'
     = [(dec 12 1, dec 0 1); (dec 12 1, dec 7 1); (dec 15 1, dec 2 1)]
  /\ hd_error (contpoints st') <> hd_error (contpoints tied_state).
Proof.
  cbv zeta. split; [|split; [|split]].
  - repeat (constructor; try (vm_compute; reflexivity)).
  - reflexivity.
  - apply knots_eqb_eq. vm_compute. reflexivity.
  - intros H. vm_compute in H. discriminate H.
Qed.

(** C8 (the code at the failing input): [__init__] moves the first knot up
    to the pixel [wa[i1]] = 20 and keeps the window limit [wmin] = 12 that
    it read from the knot before.  An ['m'] event with the cursor at
    (15, 11), nearest to the middle knot, passes both guards, and the
    re-sort puts the moved knot in front of the first one.  At the upper
    end [wmax] = 35 lies below the last knot at 40, and an ['m'] event at
    (36, 12), nearest to the middle knot as well, is turned away by the
    window guard. *)
Lemma move_replaces_first_knot :
  let st' :=
    run_events between_closed_open flat_spline screen_identity
      [key_event "m" 15 11] sample_state in
  init flat_spline (grid [0; 10; 20; 30; 40; 50]%Z) (flat_flux (dec 1 1) 6) (ones 6)
       [(dec 12 1, dec 1 1); (dec 25 1, dec 11 1); (dec 35 1, dec 1 1)]
       (Some (ones 6))
  = Ok sample_state
  /\ contpoints sample_state
     = [(dec 20 1, dec 1 1); (dec 25 1, dec 11 1); (dec 40 1, dec 1 1)]
  /\ wmin sample_state = dec 12 1
  /\ wmax sample_state = dec 35 1
  /\ nearest screen_identity (key_event "m" 15 11) (contpoints sample_state) = 1%nat
  /\ contpoints st'
     = [(dec 15 1, dec 11 1); (dec 20 1, dec 1 1); (dec 40 1, dec 1 1)]
  /\ hd_error (contpoints st') <> hd_error (contpoints sample_state)
  /\ nearest screen_identity (key_event "m" 36 12) (contpoints sample_state) = 1%nat
  /\ on_keypress between_closed_open flat_spline screen_identity
       (key_event "m" 36 12) sample_state
     = (sample_state, Return).
Proof.
  cbv zeta. split; [exact init_sample_state|].
  split; [reflexivity|]. split; [reflexivity|]. split; [reflexivity|].
  split; [vm_compute; reflexivity|].
  split; [apply knots_eqb_eq; vm_compute; reflexivity|].
  split; [intros H; vm_compute in H; discriminate H|].
  split; [vm_compute; reflexivity|].
  vm_compute. reflexivity.
Qed.

(** ** Instances of the further properties *)

Local Abbreviation sample_grid := (grid [0; 10; 20; 30; 40; 50]%Z).


Lemma sample_state_increasing : wavelengths_increasing (contpoints sample_state).
Proof. repeat (constructor; try (unfold lt_x; qc_lt)). Qed.

Lemma navigate_outside_axes_witness :
  on_keypress_navigate between_closed_open unit_plotrange [] []
    (event.make "i" None 0 0 0 0) zoom_axes
  = Ok zoom_axes.
Proof.
  apply navigate_outside_axes; [reflexivity|].
  simpl. intros [H | [H | [H | []]]]; discriminate H.
Defined.

Lemma zoom_keeps_cursor_central_witness :
  exists a b,
    on_keypress_navigate between_closed_open unit_plotrange [] []
      (key_event "o" 4500 0) zoom_axes
    = Ok (mkAxes (a, b) (ylim zoom_axes))
    /\ a + b = dec 4500 1 + dec 4500 1
    /\ a <= b
    /\ b - a = dec 19 10 * Qc_abs (dec 5000 1 - dec 4000 1).
Proof.
  apply (zoom_keeps_cursor_central between_closed_open unit_plotrange [] []
           (key_event "o" 4500 0) zoom_axes); [right; left; reflexivity | reflexivity].
Defined.

Lemma pan_there_and_back_witness :
  (exists ax1,
      on_keypress_navigate between_closed_open unit_plotrange [] []
        (key_event "]" 4500 0) zoom_axes = Ok ax1
      /\ on_keypress_navigate between_closed_open unit_plotrange [] []
           (key_event "[" 4500 0) ax1 = Ok zoom_axes)
  /\ (exists ax2,
         on_keypress_navigate between_closed_open unit_plotrange [] []
           (key_event "[" 4500 0) zoom_axes = Ok ax2
         /\ on_keypress_navigate between_closed_open unit_plotrange [] []
              (key_event "]" 4500 0) ax2 = Ok zoom_axes).
Proof.
  apply pan_there_and_back; [reflexivity | reflexivity|].
  apply Qc_leb_le. vm_compute. reflexivity.
Defined.

Lemma navigate_one_axis_witness :
  (In "t"%string ["i"; "o"; "]"; "["; "l"; "r"]%string ->
   ylim (set_ylim zoom_axes 0 (dec 3 1)) = ylim zoom_axes)
  /\ (In "t"%string ["Y"; "y"; "b"; "t"]%string ->
      xlim (set_ylim zoom_axes 0 (dec 3 1)) = xlim zoom_axes).
Proof.
  apply (navigate_one_axis between_closed_open unit_plotrange [] []
           (key_event "t" 4500 3) zoom_axes (set_ylim zoom_axes 0 (dec 3 1))).
  reflexivity.
Defined.

Lemma smoothing_width_after_presses_witness :
  nsmooth (run_smooth (fun fl0 _ => fl0) [] (repeat (key_event "S" 0 0) 3)
             (unsmoothed []))
  = 1 + of_nat 2 * dec 1 2.
Proof.
  apply (smoothing_width_after_presses (fun fl0 _ => fl0) [] (key_event "S" 0 0) 2).
  reflexivity.
Defined.

Lemma other_keys_ignored_witness :
  on_keypress between_closed_open flat_spline screen_identity
    (key_event "?" 25 11) sample_state
  = (sample_state, Next).
Proof.
  apply (other_keys_ignored between_closed_open flat_spline screen_identity
           (key_event "?" 25 11) sample_state).
  unfold edit_keys. simpl.
  intros H. repeat (destruct H as [H | H]; [discriminate H|]). destruct H.
Defined.

Lemma update_inside_window_witness :
  nth_error (continuum (fst (update flat_spline sample_state))) 2
  = option_map (fun _ : Qc => dec 1 1) (nth_error (wa sample_state) 2).
Proof.
  apply (update_inside_window flat_spline sample_state (fun _ => dec 1 1) 2).
  - discriminate.
  - reflexivity.
  - reflexivity.
  - vm_compute. lia.
Defined.

Lemma delete_last_interior_knot_raises_witness :
  length (contpoints (fst (on_keypress between_closed_open flat_spline screen_identity
                             (key_event "d" 25 11) sample_state))) = 2%nat
  /\ exists e, snd (on_keypress between_closed_open flat_spline screen_identity
                      (key_event "d" 25 11) sample_state) = Raised e.
Proof.
  apply delete_last_interior_knot_raises;
    [reflexivity | reflexivity | reflexivity | vm_compute; reflexivity].
Defined.





Lemma session_keeps_knots_sorted_witness :
  knots_sorted (contpoints (run_events between_closed_open flat_spline screen_identity
                              [key_event "+" 0 0; key_event "m" 28 3; key_event "d" 25 11]
                              sample_state))
  /\ (2 <= length (contpoints
                     (run_events between_closed_open flat_spline screen_identity
                        [key_event "+" 0 0; key_event "m" 28 3; key_event "d" 25 11]
                        sample_state)))%nat.
Proof.
  apply session_keeps_knots_sorted; [exact sample_state_sorted | simpl; lia].
Defined.

Lemma session_keeps_wavelengths_distinct_witness :
  wavelengths_increasing
    (contpoints (run_events between_closed_open flat_spline screen_identity
                   [key_event "+" 0 0; key_event "M" 28 3; key_event "_" 0 0]
                   sample_state))
  /\ (2 <= length (contpoints
                     (run_events between_closed_open flat_spline screen_identity
                        [key_event "+" 0 0; key_event "M" 28 3; key_event "_" 0 0]
                        sample_state)))%nat.
Proof.
  apply session_keeps_wavelengths_distinct.
  - repeat (constructor; try discriminate).
  - exact sample_state_increasing.
  - simpl. lia.
Defined.

Lemma double_adds_midpoints_witness :
  exists new : list knot,
    map fst new = midpoints (map fst (contpoints sample_state))
    /\ Permutation
         (contpoints (fst (on_keypress between_closed_open flat_spline screen_identity
                             (key_event "+" 0 0) sample_state)))
         (contpoints sample_state ++ new)
    /\ length (contpoints (fst (on_keypress between_closed_open flat_spline
                                  screen_identity (key_event "+" 0 0) sample_state)))
       = (2 * length (contpoints sample_state) - 1)%nat.
Proof.
  apply double_adds_midpoints; [reflexivity | discriminate].
Defined.

Lemma halve_keeps_every_second_witness :
  length (contpoints (fst (on_keypress between_closed_open flat_spline screen_identity
                             (key_event "_" 0 0) sample_state)))
  = (2 + Nat.div2 (length (contpoints sample_state) - 2))%nat
  /\ incl (contpoints (fst (on_keypress between_closed_open flat_spline screen_identity
                              (key_event "_" 0 0) sample_state)))
          (contpoints sample_state)
  /\ hd (0, 0) (contpoints (fst (on_keypress between_closed_open flat_spline
                                   screen_identity (key_event "_" 0 0) sample_state)))
     = hd (0, 0) (contpoints sample_state)
  /\ last (contpoints (fst (on_keypress between_closed_open flat_spline
                              screen_identity (key_event "_" 0 0) sample_state))) (0, 0)
     = last (contpoints sample_state) (0, 0)
  /\ forall k, (2 * k + 3 < length (contpoints sample_state))%nat ->
               nth_error (contpoints (fst (on_keypress between_closed_open flat_spline
                                             screen_identity (key_event "_" 0 0)
                                             sample_state))) (S k)
               = nth_error (contpoints sample_state) (2 * k + 2).
Proof.
  apply halve_keeps_every_second; [reflexivity | simpl; lia].
Defined.


Lemma local_median_without_errors_witness :
  local_median (wa two_anchor_state) (fl two_anchor_state) (er two_anchor_state)
    (dec 4500 1) (dec 95 100)
  = dec 95 100.
Proof.
  apply local_median_without_errors.
  repeat (constructor; try (apply Qc_leb_le; vm_compute; reflexivity)).
Defined.

Lemma local_median_near_start_witness :
  local_median (wa tied_state) (fl tied_state) (er tied_state) (dec 5 1) (dec 7 1)
  = dec 7 1.
Proof.
  apply local_median_near_start; [vm_compute; lia | vm_compute; lia | reflexivity].
Defined.

Lemma savejson_keeps_existing_files_witness :
  fst (savejson dump_sample sample_files "_knots.jsn" [] false) "_knots.jsn"%string
  = Some "[[1, 1]]"%string.
Proof.
  apply savejson_keeps_existing_files. reflexivity.
Defined.

Lemma savejson_gz_raises_witness :
  savejson dump_sample sample_files "knots.jsn.gz" [] true
  = (sample_files,
     Fails (if truthy (sample_files "knots.jsn.gz"%string) && negb true
            then File_IOError else File_NameError)).
Proof.
  apply savejson_gz_raises. reflexivity.
Defined.
